(** * Kodiack Studio MCP bridge: the server-Claude terminal session

    A shallow embedding of the terminal bridge of [src/index.js]
    (and of its later revision, the 1.2.0 server with Chad logging):
    the three module-level variables [serverClaudeWs],
    [serverClaudeBuffer], [serverClaudeConnected], the promise executor
    of [connectToServerClaude] with its five callbacks, and the
    [server_claude_send] case of the tool dispatcher.

    The two revisions agree on this code word for word, up to two
    string constants: the message of the timeout error and the fallback
    text of [server_claude_send].

    JavaScript strings are sequences of UTF-16 code units; a code unit
    is an [N].  The regular expressions of the ANSI strip chain have no
    [u] flag, so they too work on code units. *)

From Stdlib Require Import List NArith ZArith Lia Bool String Ascii Floats.
From Stdlib Require DecimalFacts DecimalPos DecimalN.
Import ListNotations.

Set Implicit Arguments.

(** ** JavaScript strings *)

Definition char := N.
Definition jsstring := list char.

(** A source literal, written as a Rocq string of ASCII characters. *)
Definition lit (s : string) : jsstring :=
  map N_of_ascii (list_ascii_of_string s).

Definition ch (a : ascii) : char := N_of_ascii a.

(** A literal that contains double quotes, each written as an apostrophe. *)
Definition dq (s : string) : jsstring :=
  map (fun c => if N.eqb c 39 then 34%N else c) (lit s).

(** [s.length] *)
Definition strlen (s : jsstring) : Z := Z.of_nat (List.length s).

(** [s.slice(start)], the end left out: a negative [start] counts from
    the end of the string, and both cases are clamped to the string. *)
Definition slice (start : Z) (s : jsstring) : jsstring :=
  let len := strlen s in
  let from := if (start <? 0)%Z then Z.max (len + start) 0 else Z.min start len in
  skipn (Z.to_nat from) s.

Fixpoint streq (a b : jsstring) : bool :=
  match a, b with
  | [], [] => true
  | x :: a', y :: b' => N.eqb x y && streq a' b'
  | _, _ => false
  end.

(** ** The regular expressions of the strip chain

    Each of the four patterns is a sequence of single-character atoms
    and of starred character classes.  [match_here] is the backtracking
    matcher of such a sequence anchored at the head of the string: a
    starred class is greedy, and gives characters back one at a time
    when the rest of the pattern fails.  It returns the number of code
    units the match covers. *)

Inductive atom : Type :=
| One (p : char -> bool)
| Star (p : char -> bool).

Definition regex := list atom.

Fixpoint match_here (re : regex) (s : jsstring) : option nat :=
  match re with
  | [] => Some O
  | One p :: re' =>
      match s with
      | c :: s' => if p c then option_map S (match_here re' s') else None
      | [] => None
      end
  | Star p :: re' =>
      (fix star (t : jsstring) : option nat :=
         match t with
         | c :: t' =>
             if p c then
               match star t' with
               | Some n => Some (S n)
               | None => match_here re' t
               end
             else match_here re' t
         | [] => match_here re' t
         end) s
  end.

(** [s.replace(re, '')] for a pattern with the [g] flag: scan from the
    left, drop every match, resume right after it.  [skip] counts the
    code units of the current match that are still to be dropped. *)
Fixpoint remove_from (re : regex) (skip : nat) (s : jsstring) : jsstring :=
  match s with
  | [] => []
  | c :: s' =>
      match skip with
      | S k => remove_from re k s'
      | O =>
          match match_here re s with
          | Some (S n) => remove_from re n s'
          | _ => c :: remove_from re O s'
          end
      end
  end.

Definition replace_all (re : regex) (s : jsstring) : jsstring :=
  remove_from re O s.

Definition ESC : char := 27%N.
Definition QUOTE : char := 34%N.
Definition BEL : char := 7%N.

Definition is_char (c : char) : char -> bool := N.eqb c.
Definition in_range (lo hi : ascii) (c : char) : bool :=
  (N.leb (ch lo) c && N.leb c (ch hi))%bool.

(** [[0-9;]] *)
Definition param (c : char) : bool := in_range "0" "9" c || is_char (ch ";") c.
(** [[A-Za-z]] *)
Definition alpha (c : char) : bool := in_range "A" "Z" c || in_range "a" "z" c.
(** [[^\x07]] *)
Definition not_bel (c : char) : bool := negb (is_char BEL c).

(** [/\x1b\[[0-9;]*[A-Za-z]/g] *)
Definition re_csi : regex := [One (is_char ESC); One (is_char (ch "[")); Star param; One alpha].
(** [/\x1b\[\?[0-9;]*[a-zA-Z]/g] *)
Definition re_csi_private : regex :=
  [One (is_char ESC); One (is_char (ch "[")); One (is_char (ch "?")); Star param; One alpha].
(** [/\x1b\][^\x07]*\x07/g] *)
Definition re_osc : regex := [One (is_char ESC); One (is_char (ch "]")); Star not_bel; One (is_char BEL)].
(** [/\x1b/g] *)
Definition re_esc : regex := [One (is_char ESC)].

Definition strip_patterns : list regex := [re_csi; re_csi_private; re_osc; re_esc].

(** The value of [clean] in the message handler: the four chained
    replacements applied to [msg.data] (the specification's scrubber). *)
Definition clean (data : jsstring) : jsstring :=
  replace_all re_esc
    (replace_all re_osc
       (replace_all re_csi_private
          (replace_all re_csi data))).

(** ** The output buffer

    [serverClaudeBuffer += chunk] followed by the size check of the
    'output' branch. *)
Definition buffer_append (buffer chunk : jsstring) : jsstring :=
  let buffer := buffer ++ chunk in
  if (strlen buffer >? 50000)%Z then slice (-30000) buffer else buffer.

(** The raw fallback of the [catch] block: the bare [+=]. *)
Definition buffer_append_raw (buffer chunk : jsstring) : jsstring :=
  buffer ++ chunk.

(** The buffer after a run of 'output' chunks, from the empty buffer. *)
Definition buffer_after (chunks : list jsstring) : jsstring :=
  fold_left buffer_append chunks [].

(** The unbounded concatenation of the chunks. *)
Definition unbounded (chunks : list jsstring) : jsstring := List.concat chunks.

(** The trailing [n] code units of a string ([n] not negative). *)
Definition trailing (n : Z) (s : jsstring) : jsstring :=
  skipn (Z.to_nat (strlen s - n)) s.

(** [b] is what is left of [total] once its head is dropped. *)
Definition tail_of (total b : jsstring) : Prop := exists k : nat, b = skipn k total.

(** What holds of the buffer once the chunks that make up [total] have
    been appended to the empty buffer. *)
Definition buffer_inv (total b : jsstring) : Prop :=
  tail_of total b /\ (Z.min (strlen total) 30000 <= strlen b <= 50000)%Z.

(** No escape character occurs in the string. *)
Definition esc_free (s : jsstring) : Prop := Forall (fun c => c <> ESC) s.

(** The pattern matches nowhere in the string. *)
Definition matches_nowhere (re : regex) (s : jsstring) : Prop :=
  forall i : nat, match_here re (skipn i s) = None.

(** ** [JSON.parse]

    The values [JSON.parse] builds.  A number keeps the text of its
    literal: the handler only ever asks whether a value is a string.
    An object keeps its members in source order, duplicates included. *)

Unset Elimination Schemes.
Inductive json : Type :=
| JNull
| JBool (b : bool)
| JNumber (literal : jsstring)
| JString (s : jsstring)
| JArray (items : list json)
| JObject (members : list (jsstring * json)).
Set Elimination Schemes.

Definition is_ws (c : char) : bool :=
  is_char 32%N c || is_char 9%N c || is_char 10%N c || is_char 13%N c.

Definition digit (c : char) : bool := in_range "0" "9" c.

Fixpoint skip_ws (s : jsstring) : jsstring :=
  match s with
  | c :: s' => if is_ws c then skip_ws s' else s
  | [] => []
  end.

(** The longest prefix of [s] in the class [p], and what follows it. *)
Fixpoint span (p : char -> bool) (s : jsstring) : jsstring * jsstring :=
  match s with
  | c :: s' => if p c then let (a, b) := span p s' in (c :: a, b) else ([], s)
  | [] => ([], [])
  end.

Fixpoint strip_prefix (p s : jsstring) : option jsstring :=
  match p, s with
  | [], _ => Some s
  | x :: p', y :: s' => if N.eqb x y then strip_prefix p' s' else None
  | _ :: _, [] => None
  end.

Definition hex_digit (c : char) : option N :=
  if digit c then Some (c - 48)%N
  else if in_range "a" "f" c then Some (c - 87)%N
  else if in_range "A" "F" c then Some (c - 55)%N
  else None.

Definition hex4 (a b c d : char) : option char :=
  match hex_digit a, hex_digit b, hex_digit c, hex_digit d with
  | Some x, Some y, Some z, Some w => Some (((x * 16 + y) * 16 + z) * 16 + w)%N
  | _, _, _, _ => None
  end.

(** The character a single-letter escape stands for. *)
Definition unescape (e : char) : option char :=
  if is_char QUOTE e then Some QUOTE
  else if is_char 92%N e then Some 92%N
  else if is_char (ch "/") e then Some (ch "/")
  else if is_char (ch "b") e then Some 8%N
  else if is_char (ch "f") e then Some 12%N
  else if is_char (ch "n") e then Some 10%N
  else if is_char (ch "r") e then Some 13%N
  else if is_char (ch "t") e then Some 9%N
  else None.

Definition cons_char (c : char) (r : option (jsstring * jsstring)) :
  option (jsstring * jsstring) :=
  match r with
  | Some (str, rest) => Some (c :: str, rest)
  | None => None
  end.

(** The characters of a string literal after its opening quote, up to
    and including the closing quote. *)
Fixpoint parse_string_chars (s : jsstring) : option (jsstring * jsstring) :=
  match s with
  | [] => None
  | c :: s' =>
      if is_char QUOTE c then Some ([], s')
      else if is_char 92%N c then
        match s' with
        | [] => None
        | e :: s'' =>
            if is_char (ch "u") e then
              match s'' with
              | h1 :: h2 :: h3 :: h4 :: s4 =>
                  match hex4 h1 h2 h3 h4 with
                  | Some u => cons_char u (parse_string_chars s4)
                  | None => None
                  end
              | _ => None
              end
            else
              match unescape e with
              | Some u => cons_char u (parse_string_chars s'')
              | None => None
              end
        end
      else if (c <? 32)%N then None
      else cons_char c (parse_string_chars s')
  end.

(** A number literal: an optional minus sign; [0] alone or a digit
    string that starts with a nonzero digit; an optional fraction (a dot
    and at least one digit); an optional exponent ([e] or [E], an
    optional sign, at least one digit). *)
Definition parse_number (s : jsstring) : option (jsstring * jsstring) :=
  let (sign, s1) :=
    match s with
    | c :: s' => if is_char (ch "-") c then ([c], s') else ([], s)
    | [] => ([], s)
    end in
  match s1 with
  | [] => None
  | d :: s1' =>
      if negb (digit d) then None
      else
        let (int, s2) := if is_char (ch "0") d then ([d], s1') else span digit s1 in
        let frac :=
          match s2 with
          | c :: s2' =>
              if is_char (ch ".") c then
                match span digit s2' with
                | ([], _) => None
                | (ds, s3) => Some (c :: ds, s3)
                end
              else Some ([], s2)
          | [] => Some ([], s2)
          end in
        match frac with
        | None => None
        | Some (fr, s3) =>
            match s3 with
            | e :: s3' =>
                if is_char (ch "e") e || is_char (ch "E") e then
                  let (sg, s4) :=
                    match s3' with
                    | c :: s4' =>
                        if is_char (ch "+") c || is_char (ch "-") c
                        then ([c], s4') else ([], s3')
                    | [] => ([], s3')
                    end in
                  match span digit s4 with
                  | ([], _) => None
                  | (ds, s5) => Some (sign ++ int ++ fr ++ e :: sg ++ ds, s5)
                  end
                else Some (sign ++ int ++ fr, s3)
            | [] => Some (sign ++ int ++ fr, s3)
            end
        end
  end.

(** The recursive descent over values, array elements and object
    members.  [fuel] bounds the depth of the descent; every two levels
    consume at least one character of the text. *)
Fixpoint parse_value (fuel : nat) (s : jsstring) : option (json * jsstring) :=
  match fuel with
  | O => None
  | S fuel' =>
      match skip_ws s with
      | [] => None
      | c :: s' =>
          if is_char (ch "{") c then
            match skip_ws s' with
            | d :: s'' =>
                if is_char (ch "}") d then Some (JObject [], s'')
                else parse_members fuel' (d :: s'') []
            | [] => None
            end
          else if is_char (ch "[") c then
            match skip_ws s' with
            | d :: s'' =>
                if is_char (ch "]") d then Some (JArray [], s'')
                else parse_elements fuel' (d :: s'') []
            | [] => None
            end
          else if is_char QUOTE c then
            match parse_string_chars s' with
            | Some (str, rest) => Some (JString str, rest)
            | None => None
            end
          else if is_char (ch "t") c then
            option_map (pair (JBool true)) (strip_prefix (lit "rue") s')
          else if is_char (ch "f") c then
            option_map (pair (JBool false)) (strip_prefix (lit "alse") s')
          else if is_char (ch "n") c then
            option_map (pair JNull) (strip_prefix (lit "ull") s')
          else
            match parse_number (c :: s') with
            | Some (num, rest) => Some (JNumber num, rest)
            | None => None
            end
      end
  end
with parse_elements (fuel : nat) (s : jsstring) (acc : list json) :
  option (json * jsstring) :=
  match fuel with
  | O => None
  | S fuel' =>
      match parse_value fuel' s with
      | None => None
      | Some (v, rest) =>
          match skip_ws rest with
          | d :: rest' =>
              if is_char (ch ",") d then parse_elements fuel' rest' (v :: acc)
              else if is_char (ch "]") d then Some (JArray (rev (v :: acc)), rest')
              else None
          | [] => None
          end
      end
  end
with parse_members (fuel : nat) (s : jsstring) (acc : list (jsstring * json)) :
  option (json * jsstring) :=
  match fuel with
  | O => None
  | S fuel' =>
      match skip_ws s with
      | q :: s' =>
          if is_char QUOTE q then
            match parse_string_chars s' with
            | None => None
            | Some (key, s1) =>
                match skip_ws s1 with
                | colon :: s2 =>
                    if is_char (ch ":") colon then
                      match parse_value fuel' s2 with
                      | None => None
                      | Some (v, rest) =>
                          match skip_ws rest with
                          | d :: rest' =>
                              if is_char (ch ",") d
                              then parse_members fuel' rest' ((key, v) :: acc)
                              else if is_char (ch "}") d
                              then Some (JObject (rev ((key, v) :: acc)), rest')
                              else None
                          | [] => None
                          end
                      end
                    else None
                | [] => None
                end
            end
          else None
      | [] => None
      end
  end.

(** [JSON.parse(text)]: [None] stands for the [SyntaxError] it throws. *)
Definition JSON_parse (text : jsstring) : option json :=
  match parse_value (S (2 * List.length text)) text with
  | Some (v, rest) =>
      match skip_ws rest with
      | [] => Some v
      | _ :: _ => None
      end
  | None => None
  end.

(** ** The message handler

    Exceptions of the [try] block, as a small error monad. *)

Inductive exn : Type :=
| SyntaxError
| TypeError.

Definition throws (A : Type) : Type := (exn + A)%type.

Definition ret {A : Type} (a : A) : throws A := inr a.
Definition throw {A : Type} (e : exn) : throws A := inl e.
Definition bind {A B : Type} (m : throws A) (k : A -> throws B) : throws B :=
  match m with
  | inl e => inl e
  | inr a => k a
  end.

Notation "x <- m ;; k" := (bind m (fun x => k))
  (at level 61, m at next level, right associativity).

(** The last member of an object with the given key: [JSON.parse] lets
    a later duplicate overwrite an earlier one. *)
Fixpoint lookup_member (key : jsstring) (members : list (jsstring * json)) : option json :=
  match members with
  | [] => None
  | (k, v) :: rest =>
      match lookup_member key rest with
      | Some w => Some w
      | None => if streq k key then Some v else None
      end
  end.

(** The property read [v.key], for a key that no prototype defines and
    that is neither an index nor [length] (as [type] and [data] are):
    [None] is [undefined]; reading a property of [null] throws. *)
Definition get (v : json) (key : jsstring) : throws (option json) :=
  match v with
  | JNull => throw TypeError
  | JObject members => ret (lookup_member key members)
  | _ => ret None
  end.

(** [v === 'text'] *)
Definition is_string (text : jsstring) (v : option json) : bool :=
  match v with
  | Some (JString s) => streq s text
  | _ => false
  end.

(** [v.replace(...)...]: only a string has a [replace] method; on
    [undefined] and [null] the property read throws, on any other value
    parsed from JSON the call of a non-function does. *)
Definition strip (v : option json) : throws jsstring :=
  match v with
  | Some (JString s) => ret (clean s)
  | _ => throw TypeError
  end.

Definition parse (text : jsstring) : throws json :=
  match JSON_parse text with
  | Some v => ret v
  | None => throw SyntaxError
  end.

(** The body of the [try] block; [data] is the text of the frame,
    [data.toString()]. *)
Definition try_block (data buffer : jsstring) : throws jsstring :=
  msg <- parse data ;;
  type <- get msg (lit "type") ;;
  if is_string (lit "output") type then
    payload <- get msg (lit "data") ;;
    clean <- strip payload ;;
    ret (buffer_append buffer clean)
  else ret buffer.

(** The ['message'] callback: the new value of [serverClaudeBuffer], or
    the exception that escapes the callback. *)
Definition on_message (data buffer : jsstring) : throws jsstring :=
  match try_block data buffer with
  | inr buffer' => ret buffer'
  | inl _ => ret (buffer_append_raw buffer data)
  end.

(** The buffer after a sequence of frames; an exception escaping the
    callback would end the sequence. *)
Fixpoint on_messages (frames : list jsstring) (buffer : jsstring) : throws jsstring :=
  match frames with
  | [] => ret buffer
  | data :: rest => buffer' <- on_message data buffer ;; on_messages rest buffer'
  end.

(** The [type] field of a parsed message, if it has one. *)
Definition type_field (msg : json) : option json :=
  match msg with
  | JObject members => lookup_member (lit "type") members
  | _ => None
  end.

(** A frame of 50,001 letters [x]: not JSON, and one code unit longer
    than the size the buffer is kept under. *)
Definition long_raw_frame : jsstring := repeat (ch "x") (Z.to_nat 50001).

(** Two 'output' chunks: 50,001 letters, then one more. *)
Definition two_chunks : list jsstring := [long_raw_frame; lit "y"].

(** ** The session and its connection attempts

    The three module-level variables.  A socket handle is the number of
    the [connectToServerClaude] call that created it. *)

Record session : Type := {
  serverClaudeWs : option nat;
  serverClaudeBuffer : jsstring;
  serverClaudeConnected : bool
}.

Inductive promise : Type :=
| Pending
| Fulfilled
| Rejected (message : jsstring).

(** [resolve] and [reject] settle a promise once; later calls do nothing. *)
Definition settle (outcome : promise) (p : promise) : promise :=
  match p with
  | Pending => outcome
  | _ => p
  end.

(** One call of [connectToServerClaude]: the project path of the socket
    it dialled ([None] when it dialled none) and the promise it returned. *)
Record attempt : Type := {
  dialled : option jsstring;
  returned : promise
}.

(** The process: the module variables, the calls made so far, the
    pending [setTimeout] callbacks (due time, attempt) and the time in
    milliseconds.  The URL of a socket is a function of its project path
    ([CLAUDE_SERVER_WS], the encoded path, [mode=claude]), so the path
    stands for it. *)
Record world : Type := {
  globals : session;
  attempts : list attempt;
  timers : list (Z * nat);
  now : Z
}.

Definition initial : world := {|
  globals := {| serverClaudeWs := None; serverClaudeBuffer := []; serverClaudeConnected := false |};
  attempts := [];
  timers := [];
  now := 0
|}.

(** [serverClaudeWs && serverClaudeConnected] *)
Definition live (g : session) : bool :=
  match serverClaudeWs g with
  | Some _ => serverClaudeConnected g
  | None => false
  end.

(** *** The address of the socket

    [encodeURIComponent] writes its argument in UTF-8, and throws a
    [URIError] when that cannot be done: when a surrogate is not half
    of a pair. *)

Definition is_high_surrogate (c : char) : bool :=
  (N.leb 55296 c && N.leb c 56319)%bool.
Definition is_low_surrogate (c : char) : bool :=
  (N.leb 56320 c && N.leb c 57343)%bool.

(** Every surrogate of [s] is half of a pair: [encodeURIComponent(s)]
    returns. *)
Fixpoint well_formed (s : jsstring) : bool :=
  match s with
  | [] => true
  | c :: s' =>
      if is_high_surrogate c then
        match s' with
        | d :: s'' => is_low_surrogate d && well_formed s''
        | [] => false
        end
      else if is_low_surrogate c then false
      else well_formed s'
  end.

(** The message of the [URIError]. *)
Definition URI_MALFORMED : jsstring := lit "URI malformed".

(** The executor of the promise [connectToServerClaude] returns.  The
    check for a live connection comes first.  Then the address is
    built: if [encodeURIComponent(projectPath)] throws, the executor
    ends there and the promise is rejected with the error, before any
    socket is created, the buffer emptied or the timer set.
    [CLAUDE_SERVER_WS] is taken to be a well-formed [ws:] address, so
    that [new WebSocket] returns a socket. *)
Definition connectToServerClaude (projectPath : jsstring) (w : world) : world :=
  let g := globals w in
  let id := List.length (attempts w) in
  if live g then
    {| globals := g;
       attempts := attempts w ++ [{| dialled := None; returned := Fulfilled |}];
       timers := timers w;
       now := now w |}
  else if well_formed projectPath then
    {| globals := {| serverClaudeWs := Some id;
                     serverClaudeBuffer := [];
                     serverClaudeConnected := serverClaudeConnected g |};
       attempts := attempts w ++ [{| dialled := Some projectPath; returned := Pending |}];
       timers := timers w ++ [((now w + 10000)%Z, id)];
       now := now w |}
  else
    {| globals := g;
       attempts := attempts w ++ [{| dialled := None; returned := Rejected URI_MALFORMED |}];
       timers := timers w;
       now := now w |}.

Fixpoint settle_nth (id : nat) (outcome : promise) (l : list attempt) : list attempt :=
  match l, id with
  | [], _ => []
  | a :: l', O => {| dialled := dialled a; returned := settle outcome (returned a) |} :: l'
  | a :: l', S k => a :: settle_nth k outcome l'
  end.

Definition with_globals (g : session) (w : world) : world :=
  {| globals := g; attempts := attempts w; timers := timers w; now := now w |}.

Definition settle_attempt (id : nat) (outcome : promise) (w : world) : world :=
  {| globals := globals w; attempts := settle_nth id outcome (attempts w);
     timers := timers w; now := now w |}.

(** The ['open'] callback of the socket of attempt [id]. *)
Definition on_open (id : nat) (w : world) : world :=
  let g := globals w in
  settle_attempt id Fulfilled
    (with_globals {| serverClaudeWs := serverClaudeWs g;
                     serverClaudeBuffer := serverClaudeBuffer g;
                     serverClaudeConnected := true |} w).

(** The ['error'] callback: [reject(err)]. *)
Definition on_error (id : nat) (message : jsstring) (w : world) : world :=
  let g := globals w in
  settle_attempt id (Rejected message)
    (with_globals {| serverClaudeWs := serverClaudeWs g;
                     serverClaudeBuffer := serverClaudeBuffer g;
                     serverClaudeConnected := false |} w).

(** The ['close'] callback: it clears the shared handle, whichever
    socket it is the callback of. *)
Definition on_close (w : world) : world :=
  let g := globals w in
  with_globals {| serverClaudeWs := None;
                  serverClaudeBuffer := serverClaudeBuffer g;
                  serverClaudeConnected := false |} w.

(** The ['message'] callback, on the process. *)
Definition on_frame (data : jsstring) (w : world) : world :=
  let g := globals w in
  match on_message data (serverClaudeBuffer g) with
  | inr buffer' =>
      with_globals {| serverClaudeWs := serverClaudeWs g;
                      serverClaudeBuffer := buffer';
                      serverClaudeConnected := serverClaudeConnected g |} w
  | inl _ => w
  end.

(** [new Error('Connection timeout')]; the 1.2.0 revision says ['Timeout']. *)
Definition TIMEOUT_MESSAGE : jsstring := lit "Connection timeout".

(** The [setTimeout] callback of attempt [id]. *)
Definition on_timeout (id : nat) (w : world) : world :=
  if negb (serverClaudeConnected (globals w))
  then settle_attempt id (Rejected TIMEOUT_MESSAGE) w
  else w.

(** *** The event loop

    What the environment does to the process: a tool call that reaches
    [connectToServerClaude], an event of the socket of some attempt, or
    nothing but the passing of time. *)

Inductive event : Type :=
| Connect (projectPath : jsstring)
| Open (id : nat)
| Message (id : nat) (data : jsstring)
| Error (id : nat) (message : jsstring)
| Close (id : nat)
| Tick.

(** Whether attempt [id] created a socket. *)
Definition has_socket (id : nat) (w : world) : bool :=
  match nth_error (attempts w) id with
  | Some {| dialled := Some _ |} => true
  | _ => false
  end.

Definition dispatch (e : event) (w : world) : world :=
  match e with
  | Connect projectPath => connectToServerClaude projectPath w
  | Open id => if has_socket id w then on_open id w else w
  | Message id data => if has_socket id w then on_frame data w else w
  | Error id message => if has_socket id w then on_error id message w else w
  | Close id => if has_socket id w then on_close w else w
  | Tick => w
  end.

(** The timers due at time [t] run in the order they were set, each at
    its due time; the others stay pending. *)
Fixpoint run_timers (t : Z) (pending : list (Z * nat)) (w : world) : world :=
  match pending with
  | [] => {| globals := globals w; attempts := attempts w; timers := []; now := now w |}
  | (due, id) :: rest =>
      if (due <=? t)%Z then
        run_timers t rest
          (on_timeout id {| globals := globals w; attempts := attempts w;
                            timers := timers w; now := due |})
      else
        let w' := run_timers t rest w in
        {| globals := globals w'; attempts := attempts w';
           timers := (due, id) :: timers w'; now := now w' |}
  end.

(** One turn of the loop: the event [e] arrives at time [t]. *)
Definition deliver (te : Z * event) (w : world) : world :=
  let (t, e) := te in
  let w1 := run_timers t (timers w) w in
  dispatch e {| globals := globals w1; attempts := attempts w1;
                timers := timers w1; now := t |}.

Definition run (trace : list (Z * event)) (w : world) : world :=
  fold_left (fun w te => deliver te w) trace w.

Definition promise_of (id : nat) (w : world) : option promise :=
  option_map returned (nth_error (attempts w) id).

(** The promise of attempt [id] has been settled, as [o]. *)
Definition settled (id : nat) (o : promise) (w : world) : Prop :=
  promise_of id w = Some o /\ o <> Pending.

(** The project paths of the sockets created so far, in order. *)
Definition dials (w : world) : list jsstring :=
  flat_map (fun a => match dialled a with Some p => [p] | None => [] end) (attempts w).

(** A late opening: the first attempt times out, its socket is left
    connecting; a second attempt dials a new socket, and then the first
    socket opens.  Nothing ever happens on the second socket. *)
Definition late_open (p : jsstring) : list (Z * event) :=
  [ (0, Connect p); (10000, Tick); (11000, Connect p); (12000, Open 0);
    (21000, Tick); (600000, Tick) ]%Z.

(** The sockets that are open after a run of events, latest first: a
    socket is open from its ['open'] event to its ['close'] event.  The
    process keeps no such list; this is what the environment sees. *)
Definition socket_event (e : event) (w : world) (open : list nat) : list nat :=
  match e with
  | Open id => if has_socket id w then id :: remove Nat.eq_dec id open else open
  | Close id => remove Nat.eq_dec id open
  | _ => open
  end.

Fixpoint live_connections (trace : list (Z * event)) (w : world) (open : list nat) : list nat :=
  match trace with
  | [] => open
  | (t, e) :: rest => live_connections rest (deliver (t, e) w) (socket_event e w open)
  end.

(** Two calls, one after the other has been rejected by its timer, each
    dialling a socket; both sockets then open, and each delivers a
    frame. *)
Definition two_sockets (p : jsstring) : list (Z * event) :=
  [ (0, Connect p); (10000, Tick); (11000, Connect p); (12000, Open 1);
    (13000, Open 0); (14000, Message 0 (lit "x")); (15000, Message 1 (lit "y")) ]%Z.

(** ** The [server_claude_connect] tool *)

Section Tools.

(** [process.env.KODIACK_PROJECT || '/var/www/NextBid_Dev/dev-studio-5000'] *)
Variable DEFAULT_PROJECT : jsstring.



End Tools.

(** ** The [server_claude_send] tool

    The values a tool argument can hold. *)

Inductive value : Type :=
| VUndefined
| VNull
| VBool (b : bool)
| VNumber (x : float)
| VString (s : jsstring)
| VObject.

Definition ToBoolean (v : value) : bool :=
  match v with
  | VUndefined | VNull => false
  | VBool b => b
  | VNumber x => negb (PrimFloat.is_zero x || PrimFloat.is_nan x)
  | VString s => match s with [] => false | _ :: _ => true end
  | VObject => true
  end.

(** [a || b] *)
Definition or_else (a b : value) : value :=
  if ToBoolean a then a else b.



(** The fallback texts of the two revisions. *)
Definition NO_OUTPUT : jsstring :=
  lit "(no output yet - server Claude may still be processing)".
Definition NO_OUTPUT_1_2 : jsstring := lit "(no output)".

(** [text: serverClaudeBuffer || '(no output yet - ...)'], the text of
    the result returned when the wait is over. *)
Definition send_text (buffer : jsstring) : value :=
  or_else (VString buffer) (VString NO_OUTPUT).

(** The same line of the 1.2.0 revision. *)
Definition send_text_1_2 (buffer : jsstring) : value :=
  or_else (VString buffer) (VString NO_OUTPUT_1_2).

(** ** The [server_claude_output] tool *)

Definition NEWLINE : char := 10%N.

(** [s.split('\n')]: the pieces between the newlines, at least one. *)
Fixpoint split_lines (s : jsstring) : list jsstring :=
  match s with
  | [] => [[]]
  | c :: s' =>
      if is_char NEWLINE c then [] :: split_lines s'
      else
        match split_lines s' with
        | piece :: pieces => (c :: piece) :: pieces
        | [] => [[c]]
        end
  end.

(** [pieces.join('\n')] *)
Fixpoint join_lines (pieces : list jsstring) : jsstring :=
  match pieces with
  | [] => []
  | [piece] => piece
  | piece :: rest => piece ++ NEWLINE :: join_lines rest
  end.

(** The integers, with the two infinities a number can convert to. *)
Inductive integer : Type :=
| NegInfinity
| Finite (z : Z)
| PosInfinity.

(** [ToIntegerOrInfinity]: the number with its fraction cut off; [NaN]
    and both zeros give 0. *)
Definition ToIntegerOrInfinity (x : float) : integer :=
  match Prim2SF x with
  | S754_nan => Finite 0
  | S754_zero _ => Finite 0
  | S754_infinity negative => if negative then NegInfinity else PosInfinity
  | S754_finite negative m e =>
      let magnitude :=
        if (0 <=? e)%Z then (Zpos m * 2 ^ e)%Z else (Zpos m / 2 ^ (- e))%Z in
      Finite (if negative then - magnitude else magnitude)
  end.

(** [array.slice(start)], the end left out. *)
Definition slice_array {A : Type} (start : integer) (l : list A) : list A :=
  let len := Z.of_nat (List.length l) in
  let from :=
    match start with
    | NegInfinity => 0%Z
    | Finite z => if (z <? 0)%Z then Z.max (len + z) 0 else Z.min z len
    | PosInfinity => len
    end in
  skipn (Z.to_nat from) l.

(** [lines && lines > 0], for a [lines] that is a number. *)
Definition wants_tail (x : float) : bool :=
  ToBoolean (VNumber x) && (0 <? x)%float.

(** The value of [output] when the text of the result is built;
    [lines] is [args?.lines], left out or a number. *)
Definition output_tail (lines : option float) (buffer : jsstring) : jsstring :=
  match lines with
  | Some x =>
      if wants_tail x
      then join_lines (slice_array (ToIntegerOrInfinity (- x)) (split_lines buffer))
      else buffer
  | None => buffer
  end.

Definition BUFFER_EMPTY : jsstring := lit "(buffer empty)".

(** [text: output || '(buffer empty)'] *)
Definition server_claude_output (lines : option float) (buffer : jsstring) : value :=
  or_else (VString (output_tail lines buffer)) (VString BUFFER_EMPTY).

(** ** [JSON.stringify] of the frames

    [QuoteJSONString]: the text of a string literal for [s].  The two
    quotes and the backslash, and the control characters, are escaped; a
    surrogate that is not half of a pair is written as a [\u] escape;
    every other code unit stands for itself. *)

Definition hex_char (d : N) : char :=
  if (d <? 10)%N then (48 + d)%N else (87 + d)%N.

(** [\uXXXX], four lower-case hexadecimal digits. *)
Definition unicode_escape (c : char) : jsstring :=
  [92%N; ch "u";
   hex_char ((c / 4096) mod 16)%N; hex_char ((c / 256) mod 16)%N;
   hex_char ((c / 16) mod 16)%N; hex_char (c mod 16)%N].

Definition quote_unit (c : char) : jsstring :=
  if is_char 8%N c then [92%N; ch "b"]
  else if is_char 9%N c then [92%N; ch "t"]
  else if is_char 10%N c then [92%N; ch "n"]
  else if is_char 12%N c then [92%N; ch "f"]
  else if is_char 13%N c then [92%N; ch "r"]
  else if is_char QUOTE c then [92%N; QUOTE]
  else if is_char 92%N c then [92%N; 92%N]
  else if (c <? 32)%N then unicode_escape c
  else [c].

Fixpoint quote_units (s : jsstring) : jsstring :=
  match s with
  | [] => []
  | c :: s' =>
      if is_high_surrogate c then
        match s' with
        | d :: s'' =>
            if is_low_surrogate d then c :: d :: quote_units s''
            else unicode_escape c ++ quote_units s'
        | [] => unicode_escape c
        end
      else if is_low_surrogate c then unicode_escape c ++ quote_units s'
      else quote_unit c ++ quote_units s'
  end.

Definition QuoteJSONString (s : jsstring) : jsstring :=
  QUOTE :: quote_units s ++ [QUOTE].

(** [JSON.stringify({ type: 'input', data })], for a [data] that is a
    string: the frame [server_claude_send] writes to the socket, once
    with the command and once with a carriage return. *)
Definition input_frame (data : jsstring) : jsstring :=
  dq "{'type':'input','data':" ++ QuoteJSONString data ++ lit "}".

(** The two frames of one command, in the order they are sent. *)
Definition command_frames (command : jsstring) : list jsstring :=
  [input_frame command; input_frame [13%N]].

(** The frame of the other direction as the README gives it,
    [{"type": "output", "data": "terminal output..."}], written by
    [JSON.stringify]. *)
Definition output_frame (data : jsstring) : jsstring :=
  dq "{'type':'output','data':" ++ QuoteJSONString data ++ lit "}".

(** ** The local watcher: [processLine] and [checkpoint]

    [String.prototype.trim] removes white space and line terminators
    from both ends. *)

Definition is_space (c : char) : bool :=
  (N.leb 9 c && N.leb c 13) || is_char 32%N c || is_char 160%N c
  || is_char 5760%N c || (N.leb 8192 c && N.leb c 8202)
  || is_char 8232%N c || is_char 8233%N c || is_char 8239%N c
  || is_char 8287%N c || is_char 12288%N c || is_char 65279%N c.

Fixpoint trim_start (s : jsstring) : jsstring :=
  match s with
  | c :: s' => if is_space c then trim_start s' else s
  | [] => []
  end.

Definition trim (s : jsstring) : jsstring :=
  rev (trim_start (rev (trim_start s))).

(** [s.startsWith(p)] *)
Definition startsWith (p s : jsstring) : bool :=
  match strip_prefix p s with
  | Some _ => true
  | None => false
  end.

(** [s.includes(p)] *)
Fixpoint includes (p s : jsstring) : bool :=
  startsWith p s ||
  match s with
  | [] => false
  | _ :: s' => includes p s'
  end.

(** The ten frames of the spinner, U+280B and the like; the pattern
    with its [^] and [+] asks that the line start with one of them. *)
Definition spinner (c : char) : bool :=
  existsb (N.eqb c)
    [10251; 10265; 10297; 10296; 10300; 10292; 10278; 10279; 10247; 10255]%N.

Definition starts_with_spinner (s : jsstring) : bool :=
  match s with
  | c :: _ => spinner c
  | [] => false
  end.

(** An element of [conversationBuffer]. *)
Record entry : Type := {
  timestamp : Z;
  content : jsstring;
  type : jsstring
}.

Definition isUserInput (trimmed : jsstring) : bool :=
  startsWith (lit ">") trimmed || startsWith (lit "$") trimmed
  || startsWith (lit "Human:") trimmed || startsWith (lit "You:") trimmed.

Definition isClaudeResponse (trimmed : jsstring) : bool :=
  startsWith (lit "Assistant:") trimmed || startsWith (lit "Claude:") trimmed
  || includes (lit "I'll") trimmed || includes (lit "Let me") trimmed.

(** The lines [processLine] returns on before it looks at the markers. *)
Definition is_noise (trimmed : jsstring) : bool :=
  (startsWith (lit "[") trimmed && includes (lit "ClaudeTerminal]") trimmed)
  || includes (lit "node_modules") trimmed
  || starts_with_spinner trimmed.

(** [processLine(line)] on [conversationBuffer]; [now] is what
    [Date.now()] returns in the call. *)
Definition processLine (now : Z) (line : jsstring) (conversationBuffer : list entry) :
  list entry :=
  let trimmed := trim line in
  match trimmed with
  | [] => conversationBuffer
  | _ :: _ =>
      if is_noise trimmed then conversationBuffer
      else if isUserInput trimmed || isClaudeResponse trimmed
              || (strlen trimmed >? 50)%Z
      then conversationBuffer ++
             [{| timestamp := now;
                 content := trimmed;
                 type := if isUserInput trimmed then lit "user" else lit "assistant" |}]
      else conversationBuffer
  end.

(** The ['data'] callback of standard input: [chunk.split('\n')], and
    [processLine] on each piece in turn.  [now_at i] is the clock when
    the piece of index [i] is processed. *)
Fixpoint process_pieces (now_at : nat -> Z) (i : nat) (pieces : list jsstring)
  (conversationBuffer : list entry) : list entry :=
  match pieces with
  | [] => conversationBuffer
  | piece :: rest =>
      process_pieces now_at (S i) rest (processLine (now_at i) piece conversationBuffer)
  end.

Definition on_stdin_data (now_at : nat -> Z) (chunk : jsstring)
  (conversationBuffer : list entry) : list entry :=
  process_pieces now_at 0 (split_lines chunk) conversationBuffer.

(** How a checkpoint request to Susan ends: the request fails, or a
    response arrives, with [response.ok] and with a body that
    [response.json()] can or cannot read. *)
Inductive reply : Type :=
| Unreachable
| Response (ok : bool) (readable : bool).

(** What [sendToSusan] returns: [true] only for a response that is
    [ok] and whose body can be read; a response that is [ok] with a
    body that cannot be read counts as a failure, although Susan has
    answered.  The log file is taken to be writable. *)
Definition sendToSusan (r : reply) : bool :=
  match r with
  | Unreachable => false
  | Response ok readable => ok && readable
  end.

(** The watcher: the buffer, and the batches for which [sendToSusan]
    returned [true], which are the ones written to the local backup,
    oldest first. *)
Record watcher : Type := {
  conversationBuffer : list entry;
  accepted : list (list entry)
}.

(** [checkpoint()] up to its [await]: the value of [messages], or
    [None] when the buffer is empty and nothing is sent.  The messages
    are the entries as they are, each with its [type] under the name
    [role] and its time in ISO form. *)
Definition checkpoint_start (w : watcher) : option (list entry) :=
  match conversationBuffer w with
  | [] => None
  | e :: rest => Some (e :: rest)
  end.

(** [checkpoint()] after its [await], with the [messages] it sent; the
    backup file is taken to be written without an error. *)
Definition checkpoint_finish (r : reply) (messages : list entry) (w : watcher) : watcher :=
  if sendToSusan r then
    {| conversationBuffer := []; accepted := accepted w ++ [messages] |}
  else w.

(** A checkpoint during which nothing else happens. *)
Definition checkpoint (r : reply) (w : watcher) : watcher :=
  match checkpoint_start w with
  | None => w
  | Some messages => checkpoint_finish r messages w
  end.

(** A line of standard input reaches the watcher. *)
Definition watcher_line (w : watcher) (timed : Z * jsstring) : watcher :=
  {| conversationBuffer := processLine (fst timed) (snd timed) (conversationBuffer w);
     accepted := accepted w |}.

(** What happens to the watcher: a line arrives, or a checkpoint runs
    from its start to the reply with nothing in between, neither a line
    nor the start of another checkpoint (by the interval or by a
    signal).  A checkpoint during which something happens is made of
    [checkpoint_start] and [checkpoint_finish]. *)
Inductive watcher_event : Type :=
| Line (now : Z) (line : jsstring)
| Checkpoint (r : reply).

Definition watcher_step (w : watcher) (e : watcher_event) : watcher :=
  match e with
  | Line now line => watcher_line w (now, line)
  | Checkpoint r => checkpoint r w
  end.

Definition watcher_run (events : list watcher_event) (w : watcher) : watcher :=
  fold_left watcher_step events w.

Definition watcher_initial : watcher :=
  {| conversationBuffer := []; accepted := [] |}.

(** Everything the lines among the events make [processLine] record. *)
Fixpoint recorded (events : list watcher_event) (sofar : list entry) : list entry :=
  match events with
  | [] => sofar
  | Line now line :: rest => recorded rest (processLine now line sofar)
  | Checkpoint _ :: rest => recorded rest sofar
  end.

(** ** The connection to Chad (revision 1.2.0)

    [chadWs] and [chadConnected], the state of every socket dialled so
    far (a handle is the index of its socket), the due times of the
    pending [setTimeout(connectToChad, 5000)] and the time. *)

Inductive socket_state : Type :=
| Connecting
| Opened
| Closed.

Record chad : Type := {
  chadWs : option nat;
  chadConnected : bool;
  chad_sockets : list socket_state;
  chad_timers : list Z;
  chad_now : Z
}.

Definition chad_initial : chad := {|
  chadWs := None; chadConnected := false;
  chad_sockets := []; chad_timers := []; chad_now := 0
|}.

(** [chadWs && chadConnected]: the test of [connectToChad], and the
    one [logToChad] makes before it writes. *)
Definition chad_live (w : chad) : bool :=
  match chadWs w with
  | Some _ => chadConnected w
  | None => false
  end.

Definition connectToChad (w : chad) : chad :=
  if chad_live w then w
  else
    {| chadWs := Some (List.length (chad_sockets w));
       chadConnected := chadConnected w;
       chad_sockets := chad_sockets w ++ [Connecting];
       chad_timers := chad_timers w;
       chad_now := chad_now w |}.

Fixpoint set_socket (k : nat) (st : socket_state) (l : list socket_state) :
  list socket_state :=
  match l, k with
  | [], _ => []
  | _ :: l', O => st :: l'
  | x :: l', S k' => x :: set_socket k' st l'
  end.

Definition socket_is (k : nat) (w : chad) : option socket_state :=
  nth_error (chad_sockets w) k.

(** What the environment does: an event of the socket [k], or time
    passing.  A socket opens once at most, while it is connecting, and
    closes once at most; an event a socket cannot have is left out. *)
Inductive chad_event : Type :=
| ChadOpen (k : nat)
| ChadError (k : nat)
| ChadClose (k : nat)
| ChadTick.

Definition chad_dispatch (e : chad_event) (w : chad) : chad :=
  match e with
  | ChadOpen k =>
      match socket_is k w with
      | Some Connecting =>
          {| chadWs := chadWs w; chadConnected := true;
             chad_sockets := set_socket k Opened (chad_sockets w);
             chad_timers := chad_timers w; chad_now := chad_now w |}
      | _ => w
      end
  | ChadError k =>
      match socket_is k w with
      | Some Connecting | Some Opened =>
          {| chadWs := chadWs w; chadConnected := false;
             chad_sockets := chad_sockets w;
             chad_timers := chad_timers w; chad_now := chad_now w |}
      | _ => w
      end
  | ChadClose k =>
      match socket_is k w with
      | Some Connecting | Some Opened =>
          {| chadWs := None; chadConnected := false;
             chad_sockets := set_socket k Closed (chad_sockets w);
             chad_timers := chad_timers w ++ [(chad_now w + 5000)%Z];
             chad_now := chad_now w |}
      | _ => w
      end
  | ChadTick => w
  end.

(** The timers due at [t] call [connectToChad], in the order they were
    set. *)
Fixpoint chad_run_timers (t : Z) (pending : list Z) (w : chad) : chad :=
  match pending with
  | [] =>
      {| chadWs := chadWs w; chadConnected := chadConnected w;
         chad_sockets := chad_sockets w; chad_timers := []; chad_now := chad_now w |}
  | due :: rest =>
      if (due <=? t)%Z then
        chad_run_timers t rest
          (connectToChad
             {| chadWs := chadWs w; chadConnected := chadConnected w;
                chad_sockets := chad_sockets w; chad_timers := chad_timers w;
                chad_now := due |})
      else
        let w' := chad_run_timers t rest w in
        {| chadWs := chadWs w'; chadConnected := chadConnected w';
           chad_sockets := chad_sockets w'; chad_timers := due :: chad_timers w';
           chad_now := chad_now w' |}
  end.

Definition chad_deliver (w : chad) (te : Z * chad_event) : chad :=
  let w1 := chad_run_timers (fst te) (chad_timers w) w in
  chad_dispatch (snd te)
    {| chadWs := chadWs w1; chadConnected := chadConnected w1;
       chad_sockets := chad_sockets w1; chad_timers := chad_timers w1;
       chad_now := fst te |}.

(** [main] calls [connectToChad] once; everything after that is the
    environment's doing. *)
Definition chad_run (trace : list (Z * chad_event)) : chad :=
  fold_left chad_deliver trace (connectToChad chad_initial).

(** The sockets that are not closed. *)
Definition open_sockets (w : chad) : nat :=
  List.length (filter (fun st => match st with Closed => false | _ => true end)
                 (chad_sockets w)).

(** What every state of a run satisfies. *)
Definition chad_inv (w : chad) : Prop :=
  match chadWs w with
  | Some k =>
      S k = List.length (chad_sockets w) /\
      (exists closed st,
         chad_sockets w = closed ++ [st] /\
         Forall (fun x => x = Closed) closed /\ st <> Closed /\
         (chadConnected w = true -> st = Opened)) /\
      chad_timers w = []
  | None =>
      Forall (fun x => x = Closed) (chad_sockets w) /\
      chadConnected w = false /\
      List.length (chad_timers w) <= 1
  end.

(** ** The [server_claude_status] tool

    The decimal digits of a whole number, as [JSON.stringify] writes a
    length. *)

Fixpoint uint_chars (d : Decimal.uint) : jsstring :=
  match d with
  | Decimal.Nil => []
  | Decimal.D0 d' => ch "0" :: uint_chars d'
  | Decimal.D1 d' => ch "1" :: uint_chars d'
  | Decimal.D2 d' => ch "2" :: uint_chars d'
  | Decimal.D3 d' => ch "3" :: uint_chars d'
  | Decimal.D4 d' => ch "4" :: uint_chars d'
  | Decimal.D5 d' => ch "5" :: uint_chars d'
  | Decimal.D6 d' => ch "6" :: uint_chars d'
  | Decimal.D7 d' => ch "7" :: uint_chars d'
  | Decimal.D8 d' => ch "8" :: uint_chars d'
  | Decimal.D9 d' => ch "9" :: uint_chars d'
  end.

Definition decimal (n : N) : jsstring := uint_chars (N.to_uint n).

(** [JSON.stringify({ connected: serverClaudeConnected, wsUrl:
    CLAUDE_SERVER_WS, bufferSize: serverClaudeBuffer.length }, null, 2)],
    the text of the result. *)
Definition server_claude_status (CLAUDE_SERVER_WS : jsstring) (g : session) : jsstring :=
  ch "{" :: NEWLINE ::
  dq "  'connected': "
    ++ (if serverClaudeConnected g then lit "true" else lit "false")
    ++ ch "," :: NEWLINE ::
  dq "  'wsUrl': " ++ QuoteJSONString CLAUDE_SERVER_WS
    ++ ch "," :: NEWLINE ::
  dq "  'bufferSize': " ++ decimal (Z.to_N (strlen (serverClaudeBuffer g)))
    ++ [NEWLINE; ch "}"].

(** ** Notions used to state further properties *)

(** [a] is [b] with some of its code units deleted. *)
Inductive subsequence : jsstring -> jsstring -> Prop :=
| subsequence_nil : subsequence [] []
| subsequence_keep (c : char) (a b : jsstring) :
    subsequence a b -> subsequence (c :: a) (c :: b)
| subsequence_drop (c : char) (a b : jsstring) :
    subsequence a b -> subsequence a (c :: b).

(** The frame is an 'output' envelope that carries the text [payload]:
    it parses to an object whose [type] is the string [output] and whose
    [data] is a string. *)
Definition output_envelope (data payload : jsstring) : Prop :=
  exists members,
    JSON_parse data = Some (JObject members) /\
    lookup_member (lit "type") members = Some (JString (lit "output")) /\
    lookup_member (lit "data") members = Some (JString payload).

(* Settles a goal about a run by cases on which timers are due. *)
Ltac timeline :=
  repeat match goal with
         | |- context [(?a <=? ?b)%Z] =>
             destruct (Z.leb_spec a b); simpl; try lia
         end;
  try reflexivity.

(** ** Sanity checks of the strip chain *)

Example clean_sgr :
  clean ([ESC] ++ lit "[31mHello" ++ [ESC] ++ lit "[0m" ++ [10%N]) = lit "Hello" ++ [10%N].
Proof. reflexivity. Qed.

Example clean_title :
  clean ([ESC] ++ lit "]0;title" ++ [BEL] ++ lit "Body") = lit "Body".
Proof. reflexivity. Qed.

Example clean_plain : clean (lit "plain text") = lit "plain text".
Proof. reflexivity. Qed.

Example clean_erase_line :
  clean ([ESC] ++ lit "[2Kfile.txt" ++ [10%N]) = lit "file.txt" ++ [10%N].
Proof. reflexivity. Qed.

Example clean_private_mode :
  clean ([ESC] ++ lit "[?25hprompt" ++ [ESC] ++ lit "[") = lit "prompt[".
Proof. reflexivity. Qed.

Example parse_output_frame :
  JSON_parse (dq "{'type':'output','data':'hi\n'}")
  = Some (JObject [(lit "type", JString (lit "output")); (lit "data", JString (lit "hi" ++ [10%N]))]).
Proof. reflexivity. Qed.

Example parse_nested :
  JSON_parse (dq " [1, -2.5e+3, [true, {'a': null}], '\u001b[m'] ")
  = Some (JArray [JNumber (lit "1"); JNumber (lit "-2.5e+3");
                  JArray [JBool true; JObject [(lit "a", JNull)]];
                  JString (ESC :: lit "[m")]).
Proof. reflexivity. Qed.

Example parse_rejects :
  map JSON_parse [lit "hello"; dq "{'type':}"; lit "01"; lit "[1,]"; lit "{} x"; []; lit "1."; lit "nul"]
  = [None; None; None; None; None; None; None; None].
Proof. reflexivity. Qed.

Example parse_deep :
  JSON_parse (lit "[[[[[[1,2],3],[4,[5,[6]]]]]],7,8,9,10,11,12,13,14,15,16]")
  = Some (JArray [JArray [JArray [JArray [
            JArray [JArray [JNumber (lit "1"); JNumber (lit "2")]; JNumber (lit "3")];
            JArray [JNumber (lit "4"); JArray [JNumber (lit "5"); JArray [JNumber (lit "6")]]]]]];
          JNumber (lit "7"); JNumber (lit "8"); JNumber (lit "9"); JNumber (lit "10");
          JNumber (lit "11"); JNumber (lit "12"); JNumber (lit "13"); JNumber (lit "14");
          JNumber (lit "15"); JNumber (lit "16")]).
Proof. reflexivity. Qed.

Example parse_duplicate_key :
  option_map type_field (JSON_parse (dq "{'type':'input','type':'output'}"))
  = Some (Some (JString (lit "output"))).
Proof. reflexivity. Qed.

Example handler_end_to_end :
  on_message (dq "{'type':'output','data':'\u001b[2Kfile.txt\n'}") [] = inr (lit "file.txt" ++ [10%N]).
Proof. reflexivity. Qed.

Example handler_null :
  on_message (lit "null") (lit "abc") = inr (lit "abcnull").
Proof. reflexivity. Qed.

Example handler_other :
  on_message (dq "{'type':'status'}") (lit "abc") = inr (lit "abc").
Proof. reflexivity. Qed.

Example handler_nodata :
  on_message (dq "{'type':'output'}") (lit "abc") = inr (lit "abc" ++ dq "{'type':'output'}").
Proof. reflexivity. Qed.

(** * Properties *)

(** ** The strip chain *)

Section StripChain.

Variable tail : regex.

(* Every pattern of the chain opens with the escape character. *)
Let re : regex := One (is_char ESC) :: tail.

Lemma match_here_needs_esc (s : jsstring) :
  esc_free s -> match_here re s = None.
Proof.
  intros H. destruct H as [|c s' Hc _]; [reflexivity|].
  change (match_here re (c :: s'))
    with (if is_char ESC c then option_map S (match_here tail s') else None).
  unfold is_char. destruct (N.eqb_spec ESC c) as [E|_]; [|reflexivity].
  now elim Hc.
Qed.

Lemma replace_all_esc_free (s : jsstring) :
  esc_free s -> replace_all re s = s.
Proof.
  unfold replace_all. induction 1 as [|c s' Hc Hs IH]; [reflexivity|].
  cbn [remove_from].
  rewrite (match_here_needs_esc (Forall_cons c Hc Hs)).
  now rewrite IH.
Qed.

Lemma esc_free_skipn (i : nat) (s : jsstring) :
  esc_free s -> esc_free (skipn i s).
Proof.
  revert s. induction i as [|i IH]; intros s H; [exact H|].
  destruct H; simpl; [constructor|now apply IH].
Qed.

Lemma esc_free_matches_nowhere (s : jsstring) :
  esc_free s -> matches_nowhere re s.
Proof.
  intros H i. apply match_here_needs_esc, esc_free_skipn, H.
Qed.

End StripChain.

Lemma remove_esc_cons (c : char) (s : jsstring) :
  replace_all re_esc (c :: s)
  = if N.eqb ESC c then replace_all re_esc s else c :: replace_all re_esc s.
Proof.
  unfold replace_all. change (remove_from re_esc 0 (c :: s)) with
    (match (if is_char ESC c then Some 1 else None) with
     | Some (S n) => remove_from re_esc n s
     | _ => c :: remove_from re_esc 0 s
     end).
  unfold is_char. now destruct (N.eqb ESC c).
Qed.

Lemma replace_all_esc (s : jsstring) : esc_free (replace_all re_esc s).
Proof.
  unfold esc_free. induction s as [|c s IH]; [constructor|].
  rewrite remove_esc_cons.
  destruct (N.eqb_spec ESC c) as [_|Hne]; [exact IH|].
  constructor; [congruence|exact IH].
Qed.

Lemma clean_esc_free (s : jsstring) : esc_free (clean s).
Proof. apply replace_all_esc. Qed.

(** C3: the strip chain is idempotent, and after one pass none of its
    four patterns matches anywhere in the result. *)
Theorem clean_idempotent (s : jsstring) :
  clean (clean s) = clean s /\
  forall re, In re strip_patterns -> matches_nowhere re (clean s).
Proof.
  pose proof (clean_esc_free s) as H. split.
  - unfold clean at 1.
    rewrite (replace_all_esc_free _ H : replace_all re_csi _ = _).
    rewrite (replace_all_esc_free _ H : replace_all re_csi_private _ = _).
    rewrite (replace_all_esc_free _ H : replace_all re_osc _ = _).
    exact (replace_all_esc_free _ H : replace_all re_esc _ = _).
  - intros re Hin. simpl in Hin.
    destruct Hin as [<-|[<-|[<-|[<-|[]]]]];
      exact (esc_free_matches_nowhere _ H).
Qed.

Lemma clean_idempotent_witness :
  In re_osc strip_patterns /\
  matches_nowhere re_osc (clean (ESC :: lit "]0;title")).
Proof.
  split; [simpl; tauto|].
  apply (clean_idempotent (ESC :: lit "]0;title")). simpl. tauto.
Defined.

(** ** The bounded buffer *)

Lemma strlen_app (a b : jsstring) : strlen (a ++ b) = (strlen a + strlen b)%Z.
Proof. unfold strlen. rewrite length_app. lia. Qed.

Lemma strlen_skipn (k : nat) (s : jsstring) :
  strlen (skipn k s) = Z.max 0 (strlen s - Z.of_nat k).
Proof. unfold strlen. rewrite length_skipn. lia. Qed.

Lemma tail_of_trailing (total b : jsstring) :
  tail_of total b <-> b = trailing (strlen b) total.
Proof.
  split.
  - intros [k ->]. unfold trailing. rewrite strlen_skipn.
    destruct (Nat.le_gt_cases k (List.length total)) as [Hle|Hgt].
    + f_equal. unfold strlen. lia.
    + rewrite (skipn_all2 total) by lia.
      rewrite skipn_all2; [reflexivity|]. unfold strlen. lia.
  - intros H. eexists. exact H.
Qed.

Lemma tail_of_le (total b : jsstring) :
  tail_of total b -> (strlen b <= strlen total)%Z.
Proof. intros [k ->]. rewrite strlen_skipn. unfold strlen. lia. Qed.

Lemma tail_of_app (total b c : jsstring) :
  tail_of total b -> tail_of (total ++ c) (b ++ c).
Proof.
  intros [k ->].
  destruct (Nat.le_gt_cases k (List.length total)) as [Hle|Hgt].
  - exists k. rewrite skipn_app.
    replace (k - List.length total) with 0 by lia. reflexivity.
  - exists (List.length total). rewrite (skipn_all2 total) by lia.
    rewrite skipn_app, skipn_all, Nat.sub_diag. reflexivity.
Qed.

Lemma tail_of_skipn (total b : jsstring) (k : nat) :
  tail_of total b -> tail_of total (skipn k b).
Proof. intros [j ->]. exists (k + j). apply skipn_skipn. Qed.

(** The collapse of an overflowing buffer: [slice(-30000)] keeps its
    trailing 30,000 code units. *)
Lemma slice_collapse (b : jsstring) :
  (strlen b > 50000)%Z ->
  slice (-30000) b = trailing 30000 b /\ strlen (slice (-30000) b) = 30000%Z.
Proof.
  intros H. unfold slice, trailing.
  change (-30000 <? 0)%Z with true. cbv iota.
  replace (Z.max (strlen b + -30000) 0) with (strlen b - 30000)%Z by lia.
  split; [reflexivity|]. rewrite strlen_skipn. lia.
Qed.

Lemma buffer_append_inv (total b c : jsstring) :
  buffer_inv total b -> buffer_inv (total ++ c) (buffer_append b c).
Proof.
  intros [Htail Hlen]. unfold buffer_append.
  pose proof (tail_of_app c Htail) as Happ.
  pose proof (tail_of_le Happ) as Hle.
  rewrite !strlen_app in Hle.
  assert (0 <= strlen c)%Z by (unfold strlen; lia).
  destruct (Z.gtb_spec (strlen (b ++ c)) 50000) as [Hgt|Hngt].
  - destruct (slice_collapse (b ++ c)) as [_ Hs]; [lia|].
    split.
    + unfold slice. now apply tail_of_skipn.
    + rewrite Hs. lia.
  - split; [exact Happ|]. rewrite !strlen_app in *. lia.
Qed.

Lemma buffer_inv_fold (chunks : list jsstring) (total b : jsstring) :
  buffer_inv total b ->
  buffer_inv (total ++ unbounded chunks) (fold_left buffer_append chunks b).
Proof.
  revert total b. induction chunks as [|c chunks IH]; intros total b H.
  - unfold unbounded. simpl. now rewrite app_nil_r.
  - unfold unbounded. simpl. rewrite app_assoc.
    apply IH, buffer_append_inv, H.
Qed.

Lemma buffer_after_inv (chunks : list jsstring) :
  buffer_inv (unbounded chunks) (buffer_after chunks).
Proof.
  apply (buffer_inv_fold chunks (total := []) (b := [])).
  split; [now exists 0|]. unfold strlen. simpl. lia.
Qed.

(** C2, as the code has it: once the chunks appended add up to more than
    50,000 code units, the buffer holds between 30,000 and 50,000 of
    them, and they are the trailing ones of the unbounded concatenation;
    right after an append that took the buffer above 50,000 they are
    exactly the trailing 30,000. *)
Theorem buffer_after_overflow (chunks : list jsstring) :
  (strlen (unbounded chunks) > 50000)%Z ->
  (30000 <= strlen (buffer_after chunks) <= 50000)%Z /\
  buffer_after chunks = trailing (strlen (buffer_after chunks)) (unbounded chunks) /\
  (forall (earlier : list jsstring) (c : jsstring),
     chunks = earlier ++ [c] ->
     (strlen (buffer_after earlier ++ c) > 50000)%Z ->
     strlen (buffer_after chunks) = 30000%Z /\
     buffer_after chunks = trailing 30000 (unbounded chunks)).
Proof.
  intros H. destruct (buffer_after_inv chunks) as [Htail Hlen].
  apply tail_of_trailing in Htail.
  split; [lia|]. split; [exact Htail|].
  intros earlier c -> Hover.
  assert (Hlast : strlen (buffer_after (earlier ++ [c])) = 30000%Z).
  { unfold buffer_after. rewrite fold_left_app. simpl.
    fold (buffer_after earlier). unfold buffer_append.
    destruct (Z.gtb_spec (strlen (buffer_after earlier ++ c)) 50000); [|lia].
    now apply slice_collapse. }
  split; [exact Hlast|]. rewrite Htail at 1. now rewrite Hlast.
Qed.

(** X8: the append that overflows leaves exactly the trailing 30,000 code
    units of everything appended so far. *)
Lemma buffer_after_collapse (chunks : list jsstring) (c : jsstring) :
  (strlen (buffer_after chunks ++ c) > 50000)%Z ->
  buffer_after (chunks ++ [c]) = trailing 30000 (unbounded (chunks ++ [c])).
Proof.
  intros H. unfold buffer_after. rewrite fold_left_app. simpl.
  fold (buffer_after chunks).
  assert (Hinv : buffer_inv (unbounded (chunks ++ [c]))
                   (buffer_append (buffer_after chunks) c)).
  { unfold unbounded. rewrite concat_app. simpl. rewrite app_nil_r.
    apply buffer_append_inv, buffer_after_inv. }
  destruct Hinv as [Htail _]. apply tail_of_trailing in Htail.
  rewrite Htail. f_equal. unfold buffer_append.
  destruct (Z.gtb_spec (strlen (buffer_after chunks ++ c)) 50000); [|lia].
  now apply slice_collapse.
Qed.

(** The claim of C2 as it is written fails on [two_chunks]: the second
    append does not overflow, so the buffer keeps 30,001 code units. *)
Lemma buffer_after_keeps_more :
  (strlen (unbounded two_chunks) > 50000)%Z /\
  buffer_after two_chunks <> trailing 30000 (unbounded two_chunks).
Proof.
  split; [vm_compute; reflexivity|].
  intros H. apply (f_equal strlen) in H. vm_compute in H. discriminate H.
Qed.

(** The first append of a frame of 50,001 code units overflows. *)
Lemma buffer_after_overflow_witness :
  (strlen (unbounded [long_raw_frame]) > 50000)%Z /\
  (strlen (buffer_after [] ++ long_raw_frame) > 50000)%Z /\
  strlen (buffer_after [long_raw_frame]) = 30000%Z /\
  buffer_after [long_raw_frame] = trailing 30000 (unbounded [long_raw_frame]).
Proof.
  split; [vm_compute; reflexivity|]. split; [vm_compute; reflexivity|].
  destruct (@buffer_after_overflow [long_raw_frame]) as (_ & _ & H);
    [vm_compute; reflexivity|].
  apply (H [] long_raw_frame); [reflexivity|vm_compute; reflexivity].
Defined.

(** ** The message handler *)

Lemma strict_output_branch (data buffer b : jsstring) :
  try_block data buffer = inr b ->
  b = buffer \/ exists payload, b = buffer_append buffer (clean payload).
Proof.
  unfold try_block, parse, bind, ret, throw.
  destruct (JSON_parse data) as [msg|]; [|discriminate].
  destruct (get msg (lit "type")) as [e|type]; [discriminate|].
  destruct (is_string (lit "output") type).
  - destruct (get msg (lit "data")) as [e|payload]; [discriminate|].
    destruct payload as [[| | |s| |]|]; unfold strip, ret, throw;
      try discriminate.
    intros [= <-]. right. now exists s.
  - intros [= <-]. now left.
Qed.

Lemma buffer_append_bounded (buffer chunk : jsstring) :
  (strlen (buffer_append buffer chunk) <= 50000)%Z.
Proof.
  unfold buffer_append.
  destruct (Z.gtb_spec (strlen (buffer ++ chunk)) 50000) as [Hgt|Hngt].
  - destruct (slice_collapse (buffer ++ chunk)) as [_ ->]; lia.
  - lia.
Qed.

(** The structured branch keeps the buffer within its limit. *)
Lemma try_block_bounded (data buffer b : jsstring) :
  (strlen buffer <= 50000)%Z ->
  try_block data buffer = inr b ->
  (strlen b <= 50000)%Z.
Proof.
  intros Hb H. destruct (strict_output_branch _ _ H) as [->|[payload ->]].
  - exact Hb.
  - apply buffer_append_bounded.
Qed.

Lemma on_message_syntax_error (data buffer : jsstring) :
  JSON_parse data = None ->
  on_message data buffer = inr (buffer_append_raw buffer data).
Proof.
  intros H. unfold on_message, try_block, parse. now rewrite H.
Qed.

(** No exception leaves the handler, whatever the frame. *)
Lemma on_message_completes (data buffer : jsstring) :
  exists buffer', on_message data buffer = inr buffer'.
Proof.
  unfold on_message. destruct (try_block data buffer) as [e|b]; eexists; reflexivity.
Qed.

(** C1: the raw fallback appends without the size check of the
    structured branch.  One frame of 50,001 letters, which is not JSON,
    leaves the empty buffer 50,001 code units long. *)
Theorem raw_fallback_exceeds_limit :
  JSON_parse long_raw_frame = None /\
  on_messages [long_raw_frame] [] = inr long_raw_frame /\
  (strlen long_raw_frame > 50000)%Z.
Proof.
  assert (H : JSON_parse long_raw_frame = None) by (vm_compute; reflexivity).
  split; [exact H|]. split; [|vm_compute; reflexivity].
  unfold on_messages, bind. now rewrite (@on_message_syntax_error long_raw_frame [] H).
Qed.

(** C4: a frame that is not JSON is appended to the buffer as it is,
    and no exception leaves the handler. *)
Theorem on_message_unparseable (data buffer : jsstring) :
  JSON_parse data = None ->
  on_message data buffer = inr (buffer ++ data) /\
  forall w : world,
    serverClaudeBuffer (globals w) = buffer ->
    serverClaudeBuffer (globals (on_frame data w)) = buffer ++ data /\
    attempts (on_frame data w) = attempts w.
Proof.
  intros H. split; [now apply on_message_syntax_error|].
  intros w <-. unfold on_frame.
  rewrite (@on_message_syntax_error data _ H). now split.
Qed.

Lemma on_message_unparseable_witness :
  JSON_parse (lit "hello") = None /\
  on_message (lit "hello") (lit "$ ") = inr (lit "$ " ++ lit "hello").
Proof.
  split; [reflexivity|].
  apply (@on_message_unparseable (lit "hello") (lit "$ ")). reflexivity.
Defined.

(** The claim of C9 as it is written fails on the frame [null]: it
    parses, it has no [type] field, and the read of [msg.type] throws,
    so the raw fallback appends the frame. *)
Lemma on_message_null_appended :
  JSON_parse (lit "null") = Some JNull /\
  is_string (lit "output") (type_field JNull) = false /\
  on_message (lit "null") [] <> inr [].
Proof. repeat split. discriminate. Qed.

(** C9, as the code has it: a frame that parses to a value other than
    [null] and whose [type] field is not the string [output] leaves the
    buffer as it was, and no exception leaves the handler. *)
Theorem on_message_other_type (data buffer : jsstring) (msg : json) :
  JSON_parse data = Some msg ->
  msg <> JNull ->
  is_string (lit "output") (type_field msg) = false ->
  on_message data buffer = inr buffer.
Proof.
  intros Hparse Hnull Htype. unfold on_message, try_block, parse.
  rewrite Hparse. unfold bind, ret.
  destruct msg as [| b | n | s | items | members];
    [now elim Hnull| | | | |]; unfold get, ret; cbv beta iota;
    try reflexivity.
  unfold type_field in Htype. now rewrite Htype.
Qed.

Lemma on_message_other_type_witness :
  JSON_parse (dq "{'type':'exit','code':0}")
  = Some (JObject [(lit "type", JString (lit "exit")); (lit "code", JNumber (lit "0"))]) /\
  on_message (dq "{'type':'exit','code':0}") (lit "abc") = inr (lit "abc").
Proof.
  split; [reflexivity|].
  apply on_message_other_type
    with (msg := JObject [(lit "type", JString (lit "exit")); (lit "code", JNumber (lit "0"))]).
  - reflexivity.
  - discriminate.
  - reflexivity.
Defined.

(** ** Connecting *)

Lemma dials_snoc (l : list attempt) (a : attempt) :
  flat_map (fun a => match dialled a with Some p => [p] | None => [] end) (l ++ [a])
  = flat_map (fun a => match dialled a with Some p => [p] | None => [] end) l
    ++ match dialled a with Some p => [p] | None => [] end.
Proof. rewrite flat_map_app. simpl. now rewrite app_nil_r. Qed.

Lemma nth_error_snoc (l : list attempt) (a : attempt) :
  nth_error (l ++ [a]) (List.length l) = Some a.
Proof. rewrite nth_error_app2, Nat.sub_diag by lia. reflexivity. Qed.

Lemma live_true (g : session) :
  live g = true <->
  (exists h, serverClaudeWs g = Some h) /\ serverClaudeConnected g = true.
Proof.
  unfold live. destruct (serverClaudeWs g) as [h|]; split.
  - intros H. split; [now exists h|exact H].
  - now intros [_ H].
  - discriminate.
  - now intros [[h [=]] _].
Qed.

(** The claim of C5 as it is written fails on [two_sockets]: the first
    call is rejected by its timer and its socket is left connecting, the
    second call dials another socket, and both sockets open.  Two
    connections are then live in the one process, and the frames of both
    end up in the buffer. *)
Lemma two_connections_live :
  let p := lit "/srv/a" in
  let w := run (two_sockets p) initial in
  live_connections (two_sockets p) initial [] = [0; 1] /\
  dials w = [p; p] /\
  promise_of 0 w = Some (Rejected TIMEOUT_MESSAGE) /\
  promise_of 1 w = Some Fulfilled /\
  serverClaudeBuffer (globals w) = lit "xy".
Proof. cbv zeta. repeat split. Qed.

(** C5, as the code has it: a call made while the handle is set and the
    flag is on resolves at once and dials nothing, whatever path it is
    given: the module variables, the sockets dialled, the pending timers
    and the earlier attempts are all as they were. *)
Theorem connect_reuses_live (projectPath : jsstring) (w : world) (h : nat) :
  serverClaudeWs (globals w) = Some h ->
  serverClaudeConnected (globals w) = true ->
  let w' := connectToServerClaude projectPath w in
  promise_of (List.length (attempts w)) w' = Some Fulfilled /\
  dials w' = dials w /\
  globals w' = globals w /\
  timers w' = timers w /\
  (forall id, id < List.length (attempts w) ->
              nth_error (attempts w') id = nth_error (attempts w) id).
Proof.
  intros Hws Hconn.
  assert (Hlive : live (globals w) = true)
    by (apply live_true; split; [now exists h|exact Hconn]).
  unfold connectToServerClaude. rewrite Hlive. cbv zeta.
  unfold promise_of, dials. cbn [attempts globals timers].
  rewrite nth_error_snoc, dials_snoc. cbn [dialled returned option_map].
  rewrite app_nil_r. repeat split.
  intros id Hid. now rewrite nth_error_app1.
Qed.

(** A call that finds no live connection and is given a well-formed
    path: the three steps of the executor. *)
Lemma connect_dials (projectPath : jsstring) (w : world) :
  live (globals w) = false ->
  well_formed projectPath = true ->
  connectToServerClaude projectPath w
  = {| globals := {| serverClaudeWs := Some (List.length (attempts w));
                     serverClaudeBuffer := [];
                     serverClaudeConnected := serverClaudeConnected (globals w) |};
       attempts := attempts w ++ [{| dialled := Some projectPath; returned := Pending |}];
       timers := timers w ++ [((now w + 10000)%Z, List.length (attempts w))];
       now := now w |}.
Proof. intros Hlive Hwf. unfold connectToServerClaude. now rewrite Hlive, Hwf. Qed.

(** A call arrives after the timers that are due have run. *)
Lemma deliver_connect (t : Z) (projectPath : jsstring) (w : world) :
  deliver (t, Connect projectPath) w
  = connectToServerClaude projectPath (deliver (t, Tick) w).
Proof. reflexivity. Qed.



(** A world with a live connection: one call, and its socket has opened. *)
Lemma connect_reuses_live_witness :
  let w := run [(0, Connect (lit "/srv/a")); (5, Open 0)]%Z initial in
  serverClaudeWs (globals w) = Some 0 /\
  serverClaudeConnected (globals w) = true /\
  promise_of 1 (connectToServerClaude (lit "/srv/b") w) = Some Fulfilled /\
  dials (connectToServerClaude (lit "/srv/b") w) = [lit "/srv/a"].
Proof.
  cbv zeta. split; [reflexivity|]. split; [reflexivity|].
  destruct (@connect_reuses_live (lit "/srv/b")
              (run [(0, Connect (lit "/srv/a")); (5, Open 0)]%Z initial) 0
              eq_refl eq_refl) as (Hp & Hd & _).
  split; [exact Hp|exact Hd].
Defined.


(** A call made while an earlier socket is still connecting dials a
    second socket: only the flag, not the handle alone, makes a
    connection count as live. *)
Example connect_while_connecting :
  dials (run [(0, Connect (lit "/srv/a")); (100, Connect (lit "/srv/a"))]%Z initial)
  = [lit "/srv/a"; lit "/srv/a"].
Proof. reflexivity. Qed.

(** ** The connect timeout *)

(** X15: alone in the process, an attempt that dials and whose socket
    stays silent is pending up to its deadline and rejected with
    ['Connection timeout'] from the deadline on. *)
Lemma timeout_of_lone_attempt (p : jsstring) (t : Z) :
  well_formed p = true ->
  (0 <= t)%Z ->
  promise_of 0 (run [(0, Connect p); (t, Tick)]%Z initial)
  = Some (if (t <? 10000)%Z then Pending else Rejected TIMEOUT_MESSAGE).
Proof.
  intros Hwf Ht. unfold run, deliver, promise_of. simpl.
  unfold connectToServerClaude. simpl. rewrite Hwf. simpl.
  destruct (Z.ltb_spec t 10000); timeline.
Qed.

(** X16: an opening within the deadline resolves the promise, and the timer
    leaves it resolved, also when the socket has closed in between. *)
Lemma open_in_time_stays_fulfilled (p : jsstring) (t c T : Z) :
  well_formed p = true ->
  (0 <= t < 10000)%Z -> (t <= c)%Z -> (c <= T)%Z ->
  promise_of 0 (run [(0, Connect p); (t, Open 0); (T, Tick)]%Z initial) = Some Fulfilled /\
  promise_of 0 (run [(0, Connect p); (t, Open 0); (c, Close 0); (T, Tick)]%Z initial)
  = Some Fulfilled.
Proof.
  intros Hwf Ht Hc HT. unfold run, deliver, promise_of. simpl.
  unfold connectToServerClaude. simpl. rewrite Hwf. simpl.
  split; timeline.
Qed.

(** *** A settled promise stays as it is *)

Lemma settle_nth_settled (l : list attempt) (k id : nat) (o new : promise) :
  option_map returned (nth_error l id) = Some o -> o <> Pending ->
  option_map returned (nth_error (settle_nth k new l) id) = Some o.
Proof.
  revert k id. induction l as [|a l IH]; intros k id H Ho;
    [now destruct k|].
  destruct k as [|k], id as [|id]; simpl in *; try exact H.
  - injection H as <-. destruct (returned a); try reflexivity. now elim Ho.
  - now apply IH.
Qed.

Lemma settle_attempt_settled (k id : nat) (o new : promise) (w : world) :
  settled id o w -> settled id o (settle_attempt k new w).
Proof.
  intros [H Ho]. split; [|exact Ho]. now apply settle_nth_settled.
Qed.

Lemma on_timeout_settled (k id : nat) (o : promise) (w : world) :
  settled id o w -> settled id o (on_timeout k w).
Proof.
  intros H. unfold on_timeout.
  destruct (negb (serverClaudeConnected (globals w)));
    [now apply settle_attempt_settled|exact H].
Qed.

Lemma run_timers_settled (t : Z) (pending : list (Z * nat)) (id : nat)
  (o : promise) (w : world) :
  settled id o w -> settled id o (run_timers t pending w).
Proof.
  revert w. induction pending as [|[due k] rest IH]; intros w H; simpl.
  - exact H.
  - destruct (due <=? t)%Z.
    + apply IH, on_timeout_settled. exact H.
    + exact (IH w H).
Qed.

Lemma dispatch_settled (e : event) (id : nat) (o : promise) (w : world) :
  settled id o w -> settled id o (dispatch e w).
Proof.
  intros H. destruct e as [p|k|k data|k m|k|]; simpl;
    try (destruct (has_socket k w); [|exact H]); try exact H.
  - destruct H as [H Ho]. split; [|exact Ho].
    unfold promise_of, connectToServerClaude in *.
    assert (Hlt : id < List.length (attempts w)).
    { apply nth_error_Some. intros E. rewrite E in H. discriminate H. }
    destruct (live (globals w)); [|destruct (well_formed p)]; cbn [attempts];
      now rewrite nth_error_app1.
  - apply settle_attempt_settled. exact H.
  - unfold on_frame. now destruct (on_message data _).
  - apply settle_attempt_settled. exact H.
Qed.

(** X19: whatever happens later, the timer included, a promise that was
    resolved stays resolved and one that was rejected stays rejected. *)
Lemma run_settled (trace : list (Z * event)) (id : nat) (o : promise) (w : world) :
  settled id o w -> settled id o (run trace w).
Proof.
  revert w. unfold run. induction trace as [|[t e] trace IH]; intros w H;
    [exact H|].
  simpl. apply IH. apply dispatch_settled.
  exact (run_timers_settled t (timers w) H).
Qed.

(** C6: the timer tests the flag that every socket shares.  In
    [late_open], with a path that can be encoded, the first attempt is
    rejected at its deadline; the second dials at 11,000 ms; the first
    socket opens at 12,000 ms and sets the flag; at 21,000 ms the timer
    of the second attempt finds the flag on and does not reject.  No
    timer is left, and the promise of the second attempt, on whose
    socket nothing happened, is pending for good. *)
Theorem timeout_skipped_after_late_open (p : jsstring) :
  well_formed p = true ->
  let w := run (late_open p) initial in
  promise_of 0 w = Some (Rejected TIMEOUT_MESSAGE) /\
  dials w = [p; p] /\
  promise_of 1 w = Some Pending /\
  timers w = [] /\
  now w = 600000%Z.
Proof.
  intros Hwf. cbv zeta. unfold run, late_open. cbn [fold_left].
  rewrite !deliver_connect.
  rewrite (@connect_dials p (deliver (0%Z, Tick) initial) eq_refl Hwf).
  rewrite connect_dials; [|reflexivity|exact Hwf].
  repeat split.
Qed.

Lemma timeout_skipped_after_late_open_witness :
  let w := run (late_open (lit "/srv/a")) initial in
  well_formed (lit "/srv/a") = true /\
  promise_of 1 w = Some Pending /\
  timers w = [].
Proof.
  cbv zeta. split; [reflexivity|].
  destruct (@timeout_skipped_after_late_open (lit "/srv/a") eq_refl)
    as (_ & _ & Hp & Ht & _).
  split; [exact Hp|exact Ht].
Defined.

(** ** The [server_claude_send] tool *)

(** The claim of C7 as it is written names a text that neither
    revision returns. *)
Lemma send_text_not_short_sentinel :
  send_text [] <> VString (lit "(no output yet)") /\
  send_text_1_2 [] <> VString (lit "(no output yet)").
Proof. split; discriminate. Qed.

(** C7, as the code has it: when the buffer is still empty at the end
    of the wait, the text of the result is the fallback text of the
    revision, and whatever the buffer holds the text is a string that is
    not empty. *)
Theorem send_text_never_empty (buffer : jsstring) :
  send_text [] = VString NO_OUTPUT /\
  send_text_1_2 [] = VString NO_OUTPUT_1_2 /\
  (exists text, send_text buffer = VString text /\ text <> []) /\
  (exists text, send_text_1_2 buffer = VString text /\ text <> []).
Proof.
  split; [reflexivity|]. split; [reflexivity|].
  destruct buffer as [|c buffer].
  - split; eexists; (split; [reflexivity|discriminate]).
  - split; exists (c :: buffer); (split; [reflexivity|discriminate]).
Qed.




(** * Further properties *)

(** ** The strip chain, continued *)

Lemma replace_all_plain_cons (tail : regex) (c : char) (s : jsstring) :
  c <> ESC ->
  replace_all (One (is_char ESC) :: tail) (c :: s)
  = c :: replace_all (One (is_char ESC) :: tail) s.
Proof.
  intros Hc. unfold replace_all.
  change (remove_from (One (is_char ESC) :: tail) 0 (c :: s))
    with (match (if is_char ESC c
                 then option_map S (match_here tail s) else None) with
          | Some (S n) => remove_from (One (is_char ESC) :: tail) n s
          | _ => c :: remove_from (One (is_char ESC) :: tail) 0 s
          end).
  unfold is_char. destruct (N.eqb_spec ESC c) as [E|_]; [|reflexivity].
  now elim Hc.
Qed.

Lemma esc_free_In (s : jsstring) : esc_free s <-> ~ In ESC s.
Proof.
  unfold esc_free. rewrite Forall_forall. split.
  - intros H Hin. exact (H ESC Hin eq_refl).
  - intros H c Hin ->. exact (H Hin).
Qed.

Lemma remove_from_subsequence (re : regex) (s : jsstring) :
  forall skip, subsequence (remove_from re skip s) s.
Proof.
  induction s as [|c s IH]; intros skip; [constructor|].
  cbn [remove_from]. destruct skip as [|k].
  - destruct (match_here re (c :: s)) as [[|n]|];
      try (apply subsequence_keep, IH).
    apply subsequence_drop, IH.
  - apply subsequence_drop, IH.
Qed.

Lemma subsequence_trans (a b c : jsstring) :
  subsequence a b -> subsequence b c -> subsequence a c.
Proof.
  intros Hab Hbc. revert a Hab.
  induction Hbc as [|x b c Hbc IH|x b c Hbc IH]; intros a Hab.
  - exact Hab.
  - inversion Hab as [|y a' b' H|y a' b' H]; subst.
    + apply subsequence_keep, IH, H.
    + apply subsequence_drop, IH, H.
  - apply subsequence_drop, IH, Hab.
Qed.

Lemma subsequence_length (a b : jsstring) :
  subsequence a b -> (strlen a <= strlen b)%Z.
Proof.
  unfold strlen. induction 1; simpl List.length; lia.
Qed.

Lemma subsequence_In (a b : jsstring) (c : char) :
  subsequence a b -> In c a -> In c b.
Proof.
  induction 1 as [|x a b H IH|x a b H IH]; simpl; [tauto| |]; intuition.
Qed.

(** X1: the strip chain leaves no escape character behind, whatever the
    payload: also the escapes of sequences it does not know, or that
    are cut short, are gone. *)
Theorem clean_removes_every_escape (s : jsstring) : ~ In ESC (clean s).
Proof. apply esc_free_In, replace_all_esc. Qed.

(** X2: a payload without escape characters passes through the strip chain
    unchanged. *)
Theorem clean_keeps_plain_text (s : jsstring) :
  ~ In ESC s -> clean s = s.
Proof.
  intros H. apply esc_free_In in H. unfold clean.
  rewrite (replace_all_esc_free _ H : replace_all re_csi _ = _).
  rewrite (replace_all_esc_free _ H : replace_all re_csi_private _ = _).
  rewrite (replace_all_esc_free _ H : replace_all re_osc _ = _).
  exact (replace_all_esc_free _ H : replace_all re_esc _ = _).
Qed.

Lemma clean_keeps_plain_text_witness :
  ~ In ESC (lit "total 8" ++ [10%N; 9%N] ++ lit "file.txt") /\
  clean (lit "total 8" ++ [10%N; 9%N] ++ lit "file.txt")
  = lit "total 8" ++ [10%N; 9%N] ++ lit "file.txt".
Proof.
  assert (H : ~ In ESC (lit "total 8" ++ [10%N; 9%N] ++ lit "file.txt")).
  { apply esc_free_In. unfold esc_free.
    repeat (constructor; [discriminate|]). constructor. }
  split; [exact H|]. exact (@clean_keeps_plain_text _ H).
Defined.

(** X3: the strip chain only deletes: what it returns is the payload with
    some code units left out, in the same order, and so is never longer
    than the payload. *)
Theorem clean_only_deletes (s : jsstring) :
  subsequence (clean s) s /\ (strlen (clean s) <= strlen s)%Z.
Proof.
  assert (H : subsequence (clean s) s).
  { unfold clean, replace_all.
    do 3 (eapply subsequence_trans; [apply remove_from_subsequence|]).
    apply remove_from_subsequence. }
  split; [exact H|]. now apply subsequence_length.
Qed.

(** *** An escape sequence cut in two by the framing *)

Lemma match_here_star_cons (p : char -> bool) (re : regex) (c : char) (t : jsstring) :
  match_here (Star p :: re) (c :: t)
  = if p c then
      match match_here (Star p :: re) t with
      | Some n => Some (S n)
      | None => match_here re (c :: t)
      end
    else match_here re (c :: t).
Proof. reflexivity. Qed.

Lemma match_here_star_nil (p : char -> bool) (re : regex) :
  match_here (Star p :: re) [] = match_here re [].
Proof. reflexivity. Qed.

Lemma star_greedy (p : char -> bool) (re : regex) (run t : jsstring) (n : nat) :
  Forall (fun c => p c = true) run ->
  match_here (Star p :: re) t = Some n ->
  match_here (Star p :: re) (run ++ t) = Some (List.length run + n).
Proof.
  intros Hrun Ht. induction Hrun as [|c run Hc _ IH]; [exact Ht|].
  cbn [app List.length]. rewrite match_here_star_cons, Hc, IH. reflexivity.
Qed.

Lemma param_not_alpha (c : char) : param c = true -> alpha c = false.
Proof.
  unfold param, alpha, in_range, is_char, ch. cbn [N_of_ascii].
  intros H.
  repeat match goal with
         | |- context [N.leb ?a ?b] => destruct (N.leb_spec a b)
         | H : context [N.leb ?a ?b] |- _ => destruct (N.leb_spec a b)
         | H : context [N.eqb ?a ?b] |- _ => destruct (N.eqb_spec a b)
         end; simpl in *; try reflexivity; try discriminate; lia.
Qed.

Lemma param_not_esc (c : char) : param c = true -> c <> ESC.
Proof. intros H ->. discriminate H. Qed.

Lemma alpha_not_esc (c : char) : alpha c = true -> c <> ESC.
Proof. intros H ->. discriminate H. Qed.

Lemma star_param_needs_letter (run : jsstring) :
  Forall (fun c => param c = true) run ->
  match_here [Star param; One alpha] run = None.
Proof.
  induction 1 as [|c run Hc _ IH]; [reflexivity|].
  rewrite match_here_star_cons, Hc, IH.
  cbn [match_here]. now rewrite (@param_not_alpha c Hc).
Qed.

Lemma remove_from_skipn (re : regex) (s : jsstring) :
  forall k, remove_from re k s = replace_all re (skipn k s).
Proof.
  induction s as [|c s IH]; intros [|k]; try reflexivity.
  cbn [remove_from skipn]. apply IH.
Qed.

Lemma replace_all_match (re : regex) (s : jsstring) (n : nat) :
  match_here re s = Some (S n) ->
  replace_all re s = replace_all re (skipn (S n) s).
Proof.
  destruct s as [|c s]; intros H.
  - now rewrite skipn_nil.
  - unfold replace_all at 1. cbn [remove_from skipn]. rewrite H.
    apply remove_from_skipn.
Qed.

Lemma replace_all_no_match (re : regex) (c : char) (s : jsstring) :
  match_here re (c :: s) = None ->
  replace_all re (c :: s) = c :: replace_all re s.
Proof.
  intros H. unfold replace_all. cbn [remove_from]. now rewrite H.
Qed.

Lemma clean_plain_cons (c : char) (s : jsstring) :
  c <> ESC -> clean (c :: s) = c :: clean s.
Proof.
  intros Hc. unfold clean.
  rewrite (@replace_all_plain_cons _ c s Hc : replace_all re_csi _ = _).
  rewrite (@replace_all_plain_cons _ c _ Hc : replace_all re_csi_private _ = _).
  rewrite (@replace_all_plain_cons _ c _ Hc : replace_all re_osc _ = _).
  exact (@replace_all_plain_cons _ c _ Hc : replace_all re_esc _ = _).
Qed.

Lemma csi_matches_whole (run rest : jsstring) (final : char) :
  Forall (fun c => param c = true) run ->
  alpha final = true ->
  match_here re_csi (ESC :: ch "[" :: run ++ final :: rest)
  = Some (S (S (List.length run + 1))).
Proof.
  intros Hrun Hfinal.
  change (match_here re_csi (ESC :: ch "[" :: run ++ final :: rest))
    with (option_map S (option_map S
            (match_here [Star param; One alpha] (run ++ final :: rest)))).
  rewrite (@star_greedy param [One alpha] run (final :: rest) 1 Hrun);
    [reflexivity|].
  rewrite match_here_star_cons.
  destruct (param final) eqn:E.
  - apply param_not_alpha in E. congruence.
  - cbn [match_here]. now rewrite Hfinal.
Qed.

Lemma skipn_app_exact (a b : jsstring) : skipn (List.length a) (a ++ b) = b.
Proof. induction a as [|c a IH]; [reflexivity|exact IH]. Qed.

(** X4: the handler strips each frame on its own.  A colour or cursor
    sequence that a single payload carries whole is removed; when the
    framing cuts it before its final letter, only the escape character
    goes, and the bracket, the parameters and the letter stay in the
    text. *)
Theorem clean_split_sequence (run rest : jsstring) (final : char) :
  Forall (fun c => param c = true) run ->
  alpha final = true ->
  clean (ESC :: ch "[" :: run ++ final :: rest) = clean rest /\
  clean (ESC :: ch "[" :: run) ++ clean (final :: rest)
  = ch "[" :: run ++ final :: clean rest.
Proof.
  intros Hrun Hfinal. split.
  - unfold clean. rewrite (@replace_all_match _ _ _ (@csi_matches_whole run rest final Hrun Hfinal)).
    cbn [skipn].
    replace (List.length run + 1) with (List.length (run ++ [final]))
      by (rewrite length_app; reflexivity).
    replace (run ++ final :: rest) with ((run ++ [final]) ++ rest)
      by (now rewrite <- app_assoc).
    now rewrite skipn_app_exact.
  - rewrite (@clean_plain_cons final rest (@alpha_not_esc final Hfinal)).
    assert (Hfree : esc_free (ch "[" :: run)).
    { constructor; [discriminate|].
      eapply Forall_impl; [|exact Hrun]. intros c. apply param_not_esc. }
    assert (H1 : replace_all re_csi (ESC :: ch "[" :: run) = ESC :: ch "[" :: run).
    { rewrite replace_all_no_match.
      - now rewrite (replace_all_esc_free _ Hfree : replace_all re_csi _ = _).
      - change (match_here re_csi (ESC :: ch "[" :: run))
          with (option_map S (option_map S (match_here [Star param; One alpha] run))).
        now rewrite star_param_needs_letter. }
    assert (H2 : replace_all re_csi_private (ESC :: ch "[" :: run) = ESC :: ch "[" :: run).
    { rewrite replace_all_no_match.
      - now rewrite (replace_all_esc_free _ Hfree : replace_all re_csi_private _ = _).
      - destruct Hrun as [|c run Hc _]; [reflexivity|].
        change (match_here re_csi_private (ESC :: ch "[" :: c :: run))
          with (option_map S (option_map S
                  (if is_char (ch "?") c
                   then option_map S (match_here [Star param; One alpha] run)
                   else None))).
        unfold is_char. destruct (N.eqb_spec (ch "?") c) as [<-|_];
          [discriminate Hc|reflexivity]. }
    assert (H3 : replace_all re_osc (ESC :: ch "[" :: run) = ESC :: ch "[" :: run).
    { rewrite replace_all_no_match; [|reflexivity].
      now rewrite (replace_all_esc_free _ Hfree : replace_all re_osc _ = _). }
    unfold clean. rewrite H1, H2, H3, remove_esc_cons.
    change (N.eqb ESC ESC) with true. cbv iota.
    rewrite (replace_all_esc_free _ Hfree : replace_all re_esc _ = _).
    reflexivity.
Qed.

Lemma clean_split_sequence_witness :
  Forall (fun c => param c = true) (lit "1;31") /\
  alpha (ch "m") = true /\
  clean (ESC :: ch "[" :: lit "1;31" ++ ch "m" :: lit "Hello") = clean (lit "Hello") /\
  clean (ESC :: ch "[" :: lit "1;31") ++ clean (ch "m" :: lit "Hello")
  = ch "[" :: lit "1;31" ++ ch "m" :: clean (lit "Hello").
Proof.
  assert (H : Forall (fun c => param c = true) (lit "1;31"))
    by (repeat constructor).
  split; [exact H|]. split; [reflexivity|].
  exact (@clean_split_sequence (lit "1;31") (lit "Hello") (ch "m") H eq_refl).
Defined.

(** ** Frames in the wire format *)

Lemma on_message_envelope (data payload buffer : jsstring) :
  output_envelope data payload ->
  on_message data buffer = inr (buffer_append buffer (clean payload)).
Proof.
  intros (members & Hparse & Htype & Hdata).
  unfold on_message, try_block, parse. rewrite Hparse.
  unfold bind, ret, get. rewrite Htype, Hdata. reflexivity.
Qed.

Lemma fold_buffer_append_bounded (chunks : list jsstring) (buffer : jsstring) :
  (strlen buffer <= 50000)%Z ->
  (strlen (fold_left buffer_append chunks buffer) <= 50000)%Z.
Proof.
  revert buffer. induction chunks as [|c chunks IH]; intros buffer H; [exact H|].
  apply IH, buffer_append_bounded.
Qed.

Lemma fold_buffer_append_small (chunks : list jsstring) (buffer : jsstring) :
  (strlen (buffer ++ List.concat chunks) <= 50000)%Z ->
  fold_left buffer_append chunks buffer = buffer ++ List.concat chunks.
Proof.
  revert buffer. induction chunks as [|c chunks IH]; intros buffer H; simpl.
  - now rewrite app_nil_r.
  - simpl in H. rewrite app_assoc in H |- *.
    assert (Hc : (strlen (buffer ++ c) <= 50000)%Z).
    { rewrite strlen_app in H. assert (0 <= strlen (List.concat chunks))%Z
        by (unfold strlen; lia). lia. }
    unfold buffer_append at 2.
    destruct (Z.gtb_spec (strlen (buffer ++ c)) 50000); [lia|].
    now apply IH.
Qed.

(** X5: when every frame is an 'output' envelope, handling the frames in
    turn appends the stripped payloads in their order of arrival with
    the size check after each; a buffer that starts within 50,000 code
    units ends within them, and as long as everything fits nothing is
    dropped. *)
Theorem on_messages_envelopes (frames payloads : list jsstring) (buffer : jsstring) :
  Forall2 output_envelope frames payloads ->
  on_messages frames buffer
  = inr (fold_left buffer_append (map clean payloads) buffer) /\
  ((strlen buffer <= 50000)%Z ->
   (strlen (fold_left buffer_append (map clean payloads) buffer) <= 50000)%Z) /\
  ((strlen (buffer ++ List.concat (map clean payloads)) <= 50000)%Z ->
   fold_left buffer_append (map clean payloads) buffer
   = buffer ++ List.concat (map clean payloads)).
Proof.
  intros H. split; [|split].
  - revert buffer. induction H as [|data payload frames payloads Hd _ IH];
      intros buffer; [reflexivity|].
    cbn [on_messages map fold_left].
    rewrite (@on_message_envelope data payload buffer Hd). apply IH.
  - apply fold_buffer_append_bounded.
  - apply fold_buffer_append_small.
Qed.

Lemma on_messages_envelopes_witness :
  Forall2 output_envelope
    [dq "{'type':'output','data':'\u001b[1mls\u001b[0m\r\n'}";
     dq "{'data':'a.txt\n','type':'output'}"]
    [ESC :: lit "[1mls" ++ ESC :: lit "[0m" ++ [13%N; 10%N]; lit "a.txt" ++ [10%N]] /\
  on_messages
    [dq "{'type':'output','data':'\u001b[1mls\u001b[0m\r\n'}";
     dq "{'data':'a.txt\n','type':'output'}"] (lit "$ ")
  = inr (lit "$ ls" ++ [13%N; 10%N] ++ lit "a.txt" ++ [10%N]).
Proof.
  assert (H : Forall2 output_envelope
    [dq "{'type':'output','data':'\u001b[1mls\u001b[0m\r\n'}";
     dq "{'data':'a.txt\n','type':'output'}"]
    [ESC :: lit "[1mls" ++ ESC :: lit "[0m" ++ [13%N; 10%N]; lit "a.txt" ++ [10%N]]).
  { repeat constructor; eexists; repeat split; reflexivity. }
  split; [exact H|].
  destruct (@on_messages_envelopes _ _ (lit "$ ") H) as [-> _]. reflexivity.
Defined.

(** ** The [server_claude_output] tool *)

Lemma split_lines_cons (c : char) (s : jsstring) :
  split_lines (c :: s)
  = if is_char NEWLINE c then [] :: split_lines s
    else match split_lines s with
         | piece :: pieces => (c :: piece) :: pieces
         | [] => [[c]]
         end.
Proof. reflexivity. Qed.

Lemma split_lines_nonempty (s : jsstring) : split_lines s <> [].
Proof.
  destruct s as [|c s]; [discriminate|]. rewrite split_lines_cons.
  destruct (is_char NEWLINE c); [discriminate|].
  destruct (split_lines s); discriminate.
Qed.

Lemma join_lines_cons (piece : jsstring) (rest : list jsstring) :
  rest <> [] -> join_lines (piece :: rest) = piece ++ NEWLINE :: join_lines rest.
Proof. destruct rest; [now intros []|reflexivity]. Qed.

Lemma join_split (s : jsstring) : join_lines (split_lines s) = s.
Proof.
  induction s as [|c s IH]; [reflexivity|]. rewrite split_lines_cons.
  unfold is_char. destruct (N.eqb_spec NEWLINE c) as [<-|Hc].
  - rewrite join_lines_cons by apply split_lines_nonempty. now rewrite IH.
  - pose proof (split_lines_nonempty s) as Hne.
    destruct (split_lines s) as [|piece [|next rest]]; [now elim Hne| |].
    + simpl in *. now rewrite IH.
    + change (join_lines ((c :: piece) :: next :: rest))
        with (c :: join_lines (piece :: next :: rest)). now rewrite IH.
Qed.

Lemma join_lines_app (a b : list jsstring) :
  a <> [] -> b <> [] ->
  join_lines (a ++ b) = join_lines a ++ NEWLINE :: join_lines b.
Proof.
  intros Ha Hb. induction a as [|piece a IH]; [now elim Ha|].
  destruct a as [|next a].
  - simpl app. now rewrite join_lines_cons.
  - rewrite <- app_comm_cons. rewrite join_lines_cons by discriminate.
    rewrite IH by discriminate.
    rewrite (@join_lines_cons piece (next :: a)) by discriminate.
    now rewrite <- app_assoc.
Qed.

Lemma split_lines_app (a b : jsstring) :
  split_lines (a ++ NEWLINE :: b) = split_lines a ++ split_lines b.
Proof.
  induction a as [|c a IH]; [reflexivity|].
  rewrite <- app_comm_cons, !split_lines_cons, IH.
  destruct (is_char NEWLINE c); [reflexivity|].
  pose proof (split_lines_nonempty a) as Hne.
  destruct (split_lines a); [now elim Hne|reflexivity].
Qed.

Lemma split_lines_plain (piece : jsstring) :
  ~ In NEWLINE piece -> split_lines piece = [piece].
Proof.
  induction piece as [|c piece IH]; intros H; [reflexivity|].
  rewrite split_lines_cons. unfold is_char.
  destruct (N.eqb_spec NEWLINE c) as [<-|_]; [elim H; now left|].
  rewrite IH; [reflexivity|]. intros Hin. apply H. now right.
Qed.

Lemma split_lines_pieces (s : jsstring) :
  Forall (fun piece => ~ In NEWLINE piece) (split_lines s).
Proof.
  induction s as [|c s IH]; [repeat constructor; tauto|].
  rewrite split_lines_cons. unfold is_char.
  destruct (N.eqb_spec NEWLINE c) as [_|Hc].
  - constructor; [tauto|exact IH].
  - destruct (split_lines s) as [|piece pieces]; [repeat constructor; simpl; intuition|].
    inversion IH as [|? ? Hp Hps]; subst. constructor; [|exact Hps].
    simpl. intuition.
Qed.

Lemma split_join (pieces : list jsstring) :
  pieces <> [] ->
  Forall (fun piece => ~ In NEWLINE piece) pieces ->
  split_lines (join_lines pieces) = pieces.
Proof.
  intros Hne H. induction H as [|piece pieces Hp Hps IH]; [now elim Hne|].
  destruct pieces as [|next pieces].
  - now apply split_lines_plain.
  - rewrite join_lines_cons by discriminate.
    rewrite split_lines_app, IH by discriminate.
    now rewrite split_lines_plain.
Qed.

Lemma skipn_whole_prefix {A : Type} (a b : list A) :
  skipn (List.length a) (a ++ b) = b.
Proof. induction a as [|x a IH]; [reflexivity|exact IH]. Qed.

Lemma or_else_string (text fallback : jsstring) :
  or_else (VString text) (VString fallback)
  = VString (match text with [] => fallback | _ :: _ => text end).
Proof. now destruct text. Qed.

(** The tail kept from [pieces] starts at a piece boundary. *)
Lemma join_skipn_tail (k : nat) (s : jsstring) :
  join_lines (skipn k (split_lines s)) = [] \/
  exists before,
    s = before ++ join_lines (skipn k (split_lines s)) /\
    (before = [] \/ exists b, before = b ++ [NEWLINE]).
Proof.
  destruct k as [|k].
  - right. exists []. rewrite skipn_O, join_split. now split; [|left].
  - destruct (Nat.le_gt_cases (List.length (split_lines s)) (S k)) as [Hle|Hgt].
    + left. now rewrite skipn_all2.
    + right. exists (join_lines (firstn (S k) (split_lines s)) ++ [NEWLINE]).
      split; [|right; eexists; reflexivity].
      rewrite <- app_assoc. cbn [app].
      rewrite <- join_lines_app.
      * now rewrite firstn_skipn, join_split.
      * intros E. apply (f_equal (@List.length _)) in E.
        rewrite length_firstn in E. simpl List.length in E. lia.
      * intros E. apply (f_equal (@List.length _)) in E.
        rewrite length_skipn in E. simpl List.length in E. lia.
Qed.

(** X10: whatever [lines] is, the text of the result is not empty: it is
    the fallback text, or else a part of the buffer that runs to the
    buffer's end and starts at its beginning or right after a newline. *)
Theorem server_claude_output_is_tail (lines : option float) (buffer : jsstring) :
  (output_tail lines buffer = [] /\
   server_claude_output lines buffer = VString BUFFER_EMPTY) \/
  (output_tail lines buffer <> [] /\
   server_claude_output lines buffer = VString (output_tail lines buffer) /\
   exists before,
     buffer = before ++ output_tail lines buffer /\
     (before = [] \/ exists b, before = b ++ [NEWLINE])).
Proof.
  unfold server_claude_output. rewrite or_else_string.
  assert (H : output_tail lines buffer = [] \/
              exists before,
                buffer = before ++ output_tail lines buffer /\
                (before = [] \/ exists b, before = b ++ [NEWLINE])).
  { assert (Hwhole : buffer = [] \/
              exists before, buffer = before ++ buffer /\
                (before = [] \/ exists b, before = b ++ [NEWLINE]))
      by (right; exists []; now split; [|left]).
    unfold output_tail. destruct lines as [x|]; [|exact Hwhole].
    destruct (wants_tail x); [|exact Hwhole].
    apply join_skipn_tail. }
  destruct (output_tail lines buffer) as [|c t] eqn:E.
  - left. now split.
  - right. split; [discriminate|]. split; [reflexivity|].
    destruct H as [H|H]; [discriminate H|exact H].
Qed.

(** With these arguments [slice] starts at the first piece. *)
Lemma output_tail_whole (x : float) (z : Z) (buffer : jsstring) :
  ToIntegerOrInfinity (- x) = Finite z ->
  z = 0%Z \/ (Z.of_nat (List.length (split_lines buffer)) <= - z)%Z ->
  output_tail (Some x) buffer = buffer.
Proof.
  intros Hz Hcount. unfold output_tail.
  destruct (wants_tail x); [|reflexivity].
  rewrite Hz. unfold slice_array.
  replace (Z.to_nat _) with 0.
  - rewrite skipn_O. apply join_split.
  - pose proof (split_lines_nonempty buffer) as Hne.
    destruct (split_lines buffer) as [|p ps]; [now elim Hne|].
    simpl List.length in *. destruct (Z.ltb_spec z 0); lia.
Qed.

(** X11: asked for at least as many lines as the buffer has, or for a
    positive number of lines below one, the tool answers with the whole
    buffer, and with the fallback text when the buffer is empty. *)
Theorem server_claude_output_whole (x : float) (z : Z) (buffer : jsstring) :
  ToIntegerOrInfinity (- x) = Finite z ->
  z = 0%Z \/ (Z.of_nat (List.length (split_lines buffer)) <= - z)%Z ->
  server_claude_output (Some x) buffer
  = VString (match buffer with [] => BUFFER_EMPTY | _ :: _ => buffer end).
Proof.
  intros Hz Hcount. unfold server_claude_output.
  rewrite (@output_tail_whole x z buffer Hz Hcount). apply or_else_string.
Qed.

Lemma server_claude_output_whole_witness :
  ToIntegerOrInfinity (- 0.5) = Finite 0 /\
  server_claude_output (Some 0.5%float) (lit "a" ++ [NEWLINE] ++ lit "b")
  = VString (lit "a" ++ [NEWLINE] ++ lit "b").
Proof.
  split; [reflexivity|].
  apply (@server_claude_output_whole 0.5%float 0%Z); [reflexivity|now left].
Defined.

(** X12: a whole number [n] of lines, one at least: the tool answers with
    the last [n] pieces of the buffer, or all its pieces if it has
    fewer, joined by newlines, a text that splits into those pieces
    again; when that text is empty it answers with the fallback text. *)
Theorem server_claude_output_last_lines (x : float) (n : Z) (buffer : jsstring) :
  wants_tail x = true ->
  ToIntegerOrInfinity (- x) = Finite (- n) ->
  (1 <= n)%Z ->
  let pieces := split_lines buffer in
  let last := skipn (List.length pieces - Z.to_nat n) pieces in
  server_claude_output (Some x) buffer
  = VString (match join_lines last with [] => BUFFER_EMPTY | _ :: _ => join_lines last end) /\
  split_lines (join_lines last) = last /\
  List.length last = Nat.min (Z.to_nat n) (List.length pieces).
Proof.
  intros Hwant Hn Hpos. cbv zeta.
  unfold server_claude_output, output_tail. rewrite Hwant, Hn.
  unfold slice_array.
  pose proof (split_lines_nonempty buffer) as Hne.
  pose proof (split_lines_pieces buffer) as Hpieces.
  set (pieces := split_lines buffer) in *.
  assert (Hlen : List.length pieces <> 0)
    by (destruct pieces; [now elim Hne|discriminate]).
  replace (Z.to_nat _) with (List.length pieces - Z.to_nat n)
    by (destruct (Z.ltb_spec (- n) 0); lia).
  assert (Hkeep : skipn (List.length pieces - Z.to_nat n) pieces <> []).
  { intros E. apply (f_equal (@List.length _)) in E.
    rewrite length_skipn in E. simpl in E. lia. }
  split; [apply or_else_string|]. split.
  - apply split_join; [exact Hkeep|].
    rewrite <- (firstn_skipn (List.length pieces - Z.to_nat n) pieces) in Hpieces.
    now apply Forall_app in Hpieces.
  - rewrite length_skipn. lia.
Qed.

Lemma server_claude_output_last_lines_witness :
  wants_tail 2 = true /\
  ToIntegerOrInfinity (- 2) = Finite (- 2) /\
  server_claude_output (Some 2%float)
    (lit "a" ++ [NEWLINE] ++ lit "b" ++ [NEWLINE] ++ lit "c" ++ [NEWLINE] ++ lit "d")
  = VString (lit "c" ++ [NEWLINE] ++ lit "d").
Proof.
  split; [reflexivity|]. split; [reflexivity|].
  destruct (@server_claude_output_last_lines 2%float 2%Z
              (lit "a" ++ [NEWLINE] ++ lit "b" ++ [NEWLINE] ++ lit "c" ++ [NEWLINE] ++ lit "d")
              eq_refl eq_refl) as [H _]; [lia|exact H].
Defined.

(** X13: the last line of a buffer that ends with a newline is the empty
    piece after it: asked for one line, the tool answers with the
    fallback text although the buffer is not empty. *)
Theorem server_claude_output_trailing_newline (x : float) (buffer : jsstring) :
  wants_tail x = true ->
  ToIntegerOrInfinity (- x) = Finite (- 1) ->
  server_claude_output (Some x) (buffer ++ [NEWLINE]) = VString BUFFER_EMPTY.
Proof.
  intros Hwant Hone. unfold server_claude_output, output_tail.
  rewrite Hwant, Hone, split_lines_app. unfold slice_array.
  rewrite length_app. cbn [split_lines List.length].
  replace (Z.to_nat _) with (List.length (split_lines buffer))
    by (destruct (Z.ltb_spec (- 1) 0); lia).
  now rewrite skipn_whole_prefix.
Qed.

Lemma server_claude_output_trailing_newline_witness :
  wants_tail 1 = true /\
  ToIntegerOrInfinity (- 1) = Finite (- 1) /\
  server_claude_output (Some 1%float) (lit "done" ++ [NEWLINE]) = VString BUFFER_EMPTY.
Proof.
  split; [reflexivity|]. split; [reflexivity|].
  now apply (@server_claude_output_trailing_newline 1%float (lit "done")).
Defined.

(** ** The frames written to the socket *)

Lemma hex_digit_hex_char (d : N) :
  (d < 16)%N -> hex_digit (hex_char d) = Some d.
Proof.
  intros H.
  assert (Hin : In d [0; 1; 2; 3; 4; 5; 6; 7; 8; 9; 10; 11; 12; 13; 14; 15]%N).
  { simpl. lia. }
  simpl in Hin.
  repeat (destruct Hin as [<-|Hin]; [reflexivity|]). now elim Hin.
Qed.

Lemma hex4_unicode_digits (c : char) :
  (c < 65536)%N ->
  hex4 (hex_char ((c / 4096) mod 16)) (hex_char ((c / 256) mod 16))
       (hex_char ((c / 16) mod 16)) (hex_char (c mod 16)) = Some c.
Proof.
  intros H. unfold hex4.
  rewrite !hex_digit_hex_char by (apply N.mod_lt; discriminate).
  f_equal.
  pose proof (N.div_mod c 16 ltac:(discriminate)) as E0.
  pose proof (N.div_mod (c / 16) 16 ltac:(discriminate)) as E1.
  pose proof (N.div_mod (c / 16 / 16) 16 ltac:(discriminate)) as E2.
  rewrite N.Div0.div_div in E1, E2. rewrite N.Div0.div_div in E2.
  change (16 * 16)%N with 256%N in *. change (256 * 16)%N with 4096%N in *.
  assert (H3 : (c / 4096 < 16)%N)
    by (apply N.Div0.div_lt_upper_bound; exact H).
  rewrite (N.mod_small (c / 4096) 16 H3). lia.
Qed.

Lemma parse_string_unicode (a b c d : char) (t : jsstring) :
  parse_string_chars (92%N :: ch "u" :: a :: b :: c :: d :: t)
  = match hex4 a b c d with
    | Some u => cons_char u (parse_string_chars t)
    | None => None
    end.
Proof. reflexivity. Qed.

Lemma parse_unicode_escape (c : char) (t : jsstring) :
  (c < 65536)%N ->
  parse_string_chars (unicode_escape c ++ t) = cons_char c (parse_string_chars t).
Proof.
  intros H. unfold unicode_escape. cbn [app].
  now rewrite parse_string_unicode, hex4_unicode_digits.
Qed.

Lemma parse_string_cons (c : char) (t : jsstring) :
  parse_string_chars (c :: t)
  = if is_char QUOTE c then Some ([], t)
    else if is_char 92%N c then
      match t with
      | [] => None
      | e :: t' =>
          if is_char (ch "u") e then
            match t' with
            | h1 :: h2 :: h3 :: h4 :: s4 =>
                match hex4 h1 h2 h3 h4 with
                | Some u => cons_char u (parse_string_chars s4)
                | None => None
                end
            | _ => None
            end
          else
            match unescape e with
            | Some u => cons_char u (parse_string_chars t')
            | None => None
            end
      end
    else if (c <? 32)%N then None
    else cons_char c (parse_string_chars t).
Proof. reflexivity. Qed.

Lemma parse_verbatim (c : char) (t : jsstring) :
  (32 <= c)%N -> c <> QUOTE -> c <> 92%N ->
  parse_string_chars (c :: t) = cons_char c (parse_string_chars t).
Proof.
  intros Hc Hq Hb. rewrite parse_string_cons. unfold is_char.
  destruct (N.eqb_spec QUOTE c) as [E|_]; [now elim Hq|].
  destruct (N.eqb_spec 92 c) as [E|_]; [now elim Hb|].
  destruct (N.ltb_spec c 32); [lia|reflexivity].
Qed.

Lemma parse_quote_unit (c : char) (t : jsstring) :
  parse_string_chars (quote_unit c ++ t) = cons_char c (parse_string_chars t).
Proof.
  unfold quote_unit, is_char.
  repeat match goal with
         | |- context [N.eqb ?a c] =>
             destruct (N.eqb_spec a c) as [<-|?]; [reflexivity|]
         end.
  destruct (N.ltb_spec c 32).
  - apply parse_unicode_escape. lia.
  - apply parse_verbatim; [lia|congruence|congruence].
Qed.

Lemma surrogate_range (c : char) :
  is_high_surrogate c = true \/ is_low_surrogate c = true ->
  (32 <= c)%N /\ c <> QUOTE /\ c <> 92%N /\ (c < 65536)%N.
Proof.
  unfold is_high_surrogate, is_low_surrogate, QUOTE.
  rewrite !andb_true_iff, !N.leb_le. intros H. repeat split; lia.
Qed.

Lemma parse_quote_units (n : nat) :
  forall s rest, List.length s <= n ->
    parse_string_chars (quote_units s ++ QUOTE :: rest) = Some (s, rest).
Proof.
  induction n as [|n IH]; intros s rest Hlen.
  - destruct s; [reflexivity|simpl in Hlen; lia].
  - destruct s as [|c s]; [reflexivity|]. simpl in Hlen.
    cbn [quote_units].
    destruct (is_high_surrogate c) eqn:Hhigh.
    + destruct (surrogate_range c (or_introl Hhigh)) as (H32 & Hq & Hb & H16).
      destruct s as [|d s].
      * rewrite parse_unicode_escape by exact H16. reflexivity.
      * destruct (is_low_surrogate d) eqn:Hlow.
        -- destruct (surrogate_range d (or_intror Hlow)) as (D32 & Dq & Db & _).
           cbn [app]. rewrite parse_verbatim, parse_verbatim by assumption.
           rewrite IH by (simpl in Hlen; lia). reflexivity.
        -- rewrite <- app_assoc, parse_unicode_escape by exact H16.
           rewrite IH by lia. reflexivity.
    + destruct (is_low_surrogate c) eqn:Hlow.
      * destruct (surrogate_range c (or_intror Hlow)) as (_ & _ & _ & H16).
        rewrite <- app_assoc, parse_unicode_escape by exact H16.
        rewrite IH by lia. reflexivity.
      * rewrite <- app_assoc, parse_quote_unit, IH by lia. reflexivity.
Qed.

(** Quoting and then reading a string literal gives the string back. *)
Lemma parse_quoted (s rest : jsstring) :
  parse_string_chars (quote_units s ++ QUOTE :: rest) = Some (s, rest).
Proof. now apply (@parse_quote_units (List.length s)). Qed.

Lemma parse_value_object (fuel : nat) (t : jsstring) :
  parse_value (S fuel) (ch "{" :: QUOTE :: t) = parse_members fuel (QUOTE :: t) [].
Proof. reflexivity. Qed.

Lemma parse_value_string (fuel : nat) (s rest : jsstring) :
  parse_value (S fuel) (QUOTE :: quote_units s ++ QUOTE :: rest)
  = Some (JString s, rest).
Proof.
  change (parse_value (S fuel) (QUOTE :: quote_units s ++ QUOTE :: rest))
    with (match parse_string_chars (quote_units s ++ QUOTE :: rest) with
          | Some (str, rest) => Some (JString str, rest)
          | None => None
          end).
  now rewrite parse_quoted.
Qed.

Lemma parse_members_step (fuel : nat) (key t : jsstring)
  (acc : list (jsstring * json)) :
  (forall rest, parse_string_chars (key ++ QUOTE :: rest) = Some (key, rest)) ->
  parse_members (S fuel) (QUOTE :: key ++ QUOTE :: ch ":" :: t) acc
  = match parse_value fuel t with
    | None => None
    | Some (v, rest) =>
        match skip_ws rest with
        | d :: rest' =>
            if is_char (ch ",") d
            then parse_members fuel rest' ((key, v) :: acc)
            else if is_char (ch "}") d
                 then Some (JObject (rev ((key, v) :: acc)), rest')
                 else None
        | [] => None
        end
    end.
Proof.
  intros Hkey.
  change (parse_members (S fuel) (QUOTE :: key ++ QUOTE :: ch ":" :: t) acc)
    with (match parse_string_chars (key ++ QUOTE :: ch ":" :: t) with
          | None => None
          | Some (key, s1) =>
              match skip_ws s1 with
              | colon :: s2 =>
                  if is_char (ch ":") colon then
                    match parse_value fuel s2 with
                    | None => None
                    | Some (v, rest) =>
                        match skip_ws rest with
                        | d :: rest' =>
                            if is_char (ch ",") d
                            then parse_members fuel rest' ((key, v) :: acc)
                            else if is_char (ch "}") d
                            then Some (JObject (rev ((key, v) :: acc)), rest')
                            else None
                        | [] => None
                        end
                    end
                  else None
              | [] => None
              end
          end).
  rewrite Hkey. reflexivity.
Qed.

(* The text of [JSON.stringify({ type: kind, data })], spelt out. *)
Lemma parse_envelope (kind data : jsstring) (fuel : nat) :
  parse_value (4 + fuel)
    (ch "{" :: QUOTE :: lit "type" ++ QUOTE :: ch ":" :: QUOTE :: quote_units kind ++ QUOTE :: ch "," :: QUOTE :: lit "data" ++ QUOTE :: ch ":" :: QUOTE :: quote_units data ++ QUOTE :: [ch "}"])
  = Some (JObject [(lit "type", JString kind); (lit "data", JString data)], []).
Proof.
  change (4 + fuel) with (S (S (S (S fuel)))).
  rewrite parse_value_object.
  rewrite parse_members_step by reflexivity.
  rewrite parse_value_string.
  change (skip_ws (ch "," :: QUOTE :: lit "data" ++ QUOTE :: ch ":" :: QUOTE :: quote_units data ++ QUOTE :: [ch "}"])) with (ch "," :: QUOTE :: lit "data" ++ QUOTE :: ch ":" :: QUOTE :: quote_units data ++ QUOTE :: [ch "}"]).
  change (is_char (ch ",") (ch ",")) with true. cbv iota.
  rewrite parse_members_step by reflexivity.
  rewrite parse_value_string. reflexivity.
Qed.

Lemma JSON_parse_envelope (kind data text : jsstring) :
  text = ch "{" :: QUOTE :: lit "type" ++ QUOTE :: ch ":" :: QUOTE :: quote_units kind ++ QUOTE :: ch "," :: QUOTE :: lit "data" ++ QUOTE :: ch ":" :: QUOTE :: quote_units data ++ QUOTE :: [ch "}"] ->
  JSON_parse text
  = Some (JObject [(lit "type", JString kind); (lit "data", JString data)]).
Proof.
  intros E. unfold JSON_parse.
  replace (S (2 * List.length text)) with (4 + (2 * List.length text - 3))
    by (rewrite E; simpl List.length; lia).
  rewrite E at 2. now rewrite parse_envelope.
Qed.

(** Every frame the bridge writes is JSON, and parsing it gives back
    an object whose [type] is [input] and whose [data] is the text that
    was sent, code unit for code unit: quotes, backslashes, control and
    escape characters and lone surrogates included. *)
Theorem input_frame_round_trip (data : jsstring) :
  JSON_parse (input_frame data)
  = Some (JObject [(lit "type", JString (lit "input")); (lit "data", JString data)]).
Proof.
  apply (@JSON_parse_envelope (lit "input") data).
  unfold input_frame, QuoteJSONString. cbn [app]. now rewrite <- app_assoc.
Qed.

(** X9: one command goes out as two frames, both of them JSON: the command
    as it was given, then a single carriage return. *)
Theorem command_frames_round_trip (command : jsstring) :
  map JSON_parse (command_frames command)
  = [Some (JObject [(lit "type", JString (lit "input")); (lit "data", JString command)]);
     Some (JObject [(lit "type", JString (lit "input")); (lit "data", JString [13%N])])].
Proof.
  unfold command_frames. cbn [map].
  rewrite (@JSON_parse_envelope (lit "input") command (input_frame command)).
  - reflexivity.
  - unfold input_frame, QuoteJSONString. cbn [app]. now rewrite <- app_assoc.
Qed.

Lemma output_frame_envelope (data : jsstring) :
  output_envelope (output_frame data) data.
Proof.
  eexists. split.
  - apply (@JSON_parse_envelope (lit "output") data).
    unfold output_frame, QuoteJSONString. cbn [app]. now rewrite <- app_assoc.
  - split; reflexivity.
Qed.

(** X6: a frame in the README's format, whatever text it carries, takes the
    structured branch: the text is stripped and appended with the size
    check, and no exception leaves the handler. *)
Theorem output_frame_handled (data buffer : jsstring) :
  on_message (output_frame data) buffer
  = inr (buffer_append buffer (clean data)).
Proof. apply on_message_envelope, output_frame_envelope. Qed.

Example quote_json_string :
  QuoteJSONString (lit "a" ++ [QUOTE; 92%N; 10%N; ESC; 127%N; 55357%N; 56832%N; 56832%N])
  = QUOTE :: lit "a\" ++ [QUOTE] ++ lit "\\\n\u001b" ++ [127%N; 55357%N; 56832%N]
    ++ lit "\ude00" ++ [QUOTE].
Proof. reflexivity. Qed.

(** ** Connecting, continued *)

Lemma timeout_of_lone_attempt_witness :
  well_formed (lit "/srv/a") = true /\
  (0 <= 10000)%Z /\
  promise_of 0 (run [(0, Connect (lit "/srv/a")); (10000, Tick)]%Z initial)
  = Some (Rejected TIMEOUT_MESSAGE).
Proof.
  split; [reflexivity|]. split; [lia|].
  exact (@timeout_of_lone_attempt (lit "/srv/a") 10000%Z eq_refl ltac:(lia)).
Defined.

Lemma open_in_time_stays_fulfilled_witness :
  well_formed (lit "/srv/a") = true /\
  (0 <= 9999 < 10000)%Z /\ (9999 <= 9999)%Z /\ (9999 <= 10000)%Z /\
  promise_of 0 (run [(0, Connect (lit "/srv/a")); (9999, Open 0);
                     (9999, Close 0); (10000, Tick)]%Z initial)
  = Some Fulfilled.
Proof.
  split; [reflexivity|]. split; [lia|]. split; [lia|]. split; [lia|].
  apply (@open_in_time_stays_fulfilled (lit "/srv/a") 9999%Z 9999%Z 10000%Z);
    [reflexivity|lia|lia|lia].
Defined.

(** X17: a transport error on the socket of an attempt that dialled
    rejects the promise with that error at once, and the timer, which
    then finds the flag off and rejects again, does not replace it; an
    error that comes after the deadline finds the promise rejected by
    the timer, with ['Connection timeout']. *)
Theorem error_rejects_first_attempt (p message : jsstring) (t T : Z) :
  well_formed p = true ->
  (0 <= t)%Z -> (t <= T)%Z ->
  promise_of 0 (run [(0, Connect p); (t, Error 0 message); (T, Tick)]%Z initial)
  = Some (Rejected (if (t <? 10000)%Z then message else TIMEOUT_MESSAGE)).
Proof.
  intros Hwf Ht HT. unfold run, deliver, promise_of. simpl.
  unfold connectToServerClaude. simpl. rewrite Hwf. simpl.
  destruct (Z.ltb_spec t 10000); timeline.
Qed.

Lemma error_rejects_first_attempt_witness :
  well_formed (lit "/srv/a") = true /\
  (0 <= 250)%Z /\ (250 <= 10000)%Z /\
  promise_of 0 (run [(0, Connect (lit "/srv/a")); (250, Error 0 (lit "ECONNREFUSED"));
                     (10000, Tick)]%Z initial)
  = Some (Rejected (lit "ECONNREFUSED")).
Proof.
  split; [reflexivity|]. split; [lia|]. split; [lia|].
  exact (@error_rejects_first_attempt (lit "/srv/a") (lit "ECONNREFUSED")
           250%Z 10000%Z eq_refl ltac:(lia) ltac:(lia)).
Defined.

(** X18: the ['close'] callback of any socket, the current one or an older
    one, turns the flag off and clears the handle but keeps the buffer
    and dials nothing; the next call of [connectToServerClaude] with a
    path that can be encoded then dials a new socket, which becomes the
    handle, and empties the buffer. *)
Theorem close_then_connect_redials (k : nat) (p : jsstring) (w : world) :
  has_socket k w = true ->
  well_formed p = true ->
  let closed := dispatch (Close k) w in
  let again := connectToServerClaude p closed in
  serverClaudeConnected (globals closed) = false /\
  serverClaudeWs (globals closed) = None /\
  serverClaudeBuffer (globals closed) = serverClaudeBuffer (globals w) /\
  dials closed = dials w /\
  dials again = dials w ++ [p] /\
  serverClaudeWs (globals again) = Some (List.length (attempts w)) /\
  serverClaudeBuffer (globals again) = [].
Proof.
  intros H Hwf. cbv zeta. cbn [dispatch]. rewrite H.
  rewrite (@connect_dials p (on_close w) eq_refl Hwf).
  unfold on_close, with_globals, dials.
  cbn [globals attempts serverClaudeWs serverClaudeBuffer serverClaudeConnected].
  now rewrite dials_snoc.
Qed.

Lemma close_then_connect_redials_witness :
  let w := run [(0, Connect (lit "/srv/a")); (10000, Tick);
                (11000, Connect (lit "/srv/a")); (12000, Open 1);
                (12500, Message 1 (lit "raw"))]%Z initial in
  has_socket 0 w = true /\
  well_formed (lit "/srv/a") = true /\
  live (globals w) = true /\
  serverClaudeWs (globals (dispatch (Close 0) w)) = None /\
  dials (connectToServerClaude (lit "/srv/a") (dispatch (Close 0) w))
  = [lit "/srv/a"; lit "/srv/a"; lit "/srv/a"].
Proof.
  cbv zeta. split; [reflexivity|]. split; [reflexivity|]. split; [reflexivity|].
  destruct (@close_then_connect_redials 0 (lit "/srv/a")
              (run [(0, Connect (lit "/srv/a")); (10000, Tick);
                    (11000, Connect (lit "/srv/a")); (12000, Open 1);
                    (12500, Message 1 (lit "raw"))]%Z initial) eq_refl eq_refl)
    as (_ & Hws & _ & _ & Hdials & _).
  split; [exact Hws|exact Hdials].
Defined.

Lemma run_settled_witness :
  settled 0 Fulfilled (run [(0, Connect (lit "/srv/a")); (40, Open 0)]%Z initial) /\
  settled 0 Fulfilled
    (run [(41, Close 0); (10000, Tick); (10001, Error 0 (lit "late"))]%Z
       (run [(0, Connect (lit "/srv/a")); (40, Open 0)]%Z initial)).
Proof.
  assert (H : settled 0 Fulfilled
                (run [(0, Connect (lit "/srv/a")); (40, Open 0)]%Z initial))
    by (split; [reflexivity|discriminate]).
  split; [exact H|].
  exact (@run_settled [(41, Close 0); (10000, Tick); (10001, Error 0 (lit "late"))]%Z
           0 Fulfilled _ H).
Defined.

(** ** The local watcher *)

Example processLine_examples :
  map (fun line => map (fun e => (content e, type e)) (processLine 7 line []))
    [lit "   $ npm test  "; lit "Let me check."; lit "ok"; lit "   ";
     lit "> fix node_modules/x"; lit "[12:00 ClaudeTerminal] started";
     lit "Assistant: done"; 10251%N :: lit " Thinking";
     lit "0123456789012345678901234567890123456789012345678901"]
  = [[(lit "$ npm test", lit "user")]; [(lit "Let me check.", lit "assistant")]; []; [];
     []; []; [(lit "Assistant: done", lit "assistant")]; [];
     [(lit "0123456789012345678901234567890123456789012345678901", lit "assistant")]].
Proof. reflexivity. Qed.

Lemma trim_start_app (a b : jsstring) (c : char) :
  is_space c = false ->
  trim_start (a ++ c :: b) = trim_start a ++ c :: b.
Proof.
  intros Hc. induction a as [|x a IH]; simpl.
  - now rewrite Hc.
  - destruct (is_space x); [exact IH|reflexivity].
Qed.

Lemma trim_start_head (s : jsstring) :
  match trim_start s with
  | [] => True
  | c :: _ => is_space c = false
  end.
Proof.
  induction s as [|x s IH]; simpl; [exact I|].
  destruct (is_space x) eqn:E; [exact IH|exact E].
Qed.

Lemma trim_start_fixed (s : jsstring) :
  match s with [] => True | c :: _ => is_space c = false end ->
  trim_start s = s.
Proof. destruct s as [|c s]; [reflexivity|]. simpl. now intros ->. Qed.

Lemma trim_start_suffix (s : jsstring) : exists a, s = a ++ trim_start s.
Proof.
  induction s as [|x s [a IH]]; [now exists []|]. simpl.
  destruct (is_space x).
  - exists (x :: a). simpl. now f_equal.
  - now exists [].
Qed.

(** What [trim] returns is empty, or starts and ends with code units
    that are not white space. *)
Lemma trim_shape (s : jsstring) :
  trim s = [] \/
  exists first middle final,
    (trim s = [first] /\ final = first \/ trim s = first :: middle ++ [final]) /\
    is_space first = false /\ is_space final = false.
Proof.
  unfold trim. pose proof (trim_start_head s) as Hhead.
  destruct (trim_start s) as [|c t] eqn:E; [now left|].
  right.
  assert (Hrev : trim_start (rev (c :: t)) = trim_start (rev t) ++ [c])
    by (cbn [rev]; now apply trim_start_app).
  rewrite Hrev, rev_app_distr. cbn [rev app].
  pose proof (trim_start_head (rev t)) as Hlast.
  destruct (trim_start (rev t)) as [|d u] eqn:Eu.
  - exists c, [], c. cbn. repeat split; try assumption. now left.
  - exists c, (rev u), d. cbn [rev]. repeat split; try assumption.
    now right.
Qed.

Lemma trim_ends (s : jsstring) :
  trim_start (trim s) = trim s /\ trim_start (rev (trim s)) = rev (trim s).
Proof.
  destruct (trim_shape s) as [->|(first & middle & final & Hs & Hf & Hl)];
    [now split|].
  destruct Hs as [[-> ->]| ->].
  - split; apply trim_start_fixed; exact Hf.
  - split; apply trim_start_fixed; [exact Hf|].
    change (first :: middle ++ [final]) with ((first :: middle) ++ [final]).
    rewrite rev_app_distr. exact Hl.
Qed.

Lemma trim_idempotent (s : jsstring) : trim (trim s) = trim s.
Proof.
  destruct (trim_ends s) as [H1 H2]. unfold trim at 1.
  now rewrite H1, H2, rev_involutive.
Qed.

Lemma processLine_from_empty (now : Z) (line : jsstring) (buffer : list entry) :
  processLine now line buffer = buffer ++ processLine now line [].
Proof.
  unfold processLine. destruct (trim line); [now rewrite app_nil_r|].
  destruct (is_noise _); [now rewrite app_nil_r|].
  destruct (_ || _ || _)%bool; [reflexivity|now rewrite app_nil_r].
Qed.

(** X20: [processLine] leaves the entries already in the buffer alone and
    adds one entry at most.  The entry holds the trimmed line, which is
    not empty and has no white space at either end; its type is [user]
    exactly when the trimmed line starts with one of the four prompt
    markers, [assistant] otherwise; and a line without any marker is
    recorded only when its trimmed text is longer than 50 code units. *)
Theorem processLine_records (now : Z) (line : jsstring) (buffer : list entry) :
  processLine now line buffer = buffer \/
  exists e,
    processLine now line buffer = buffer ++ [e] /\
    timestamp e = now /\
    content e = trim line /\
    content e <> [] /\
    trim_start (content e) = content e /\
    trim_start (rev (content e)) = rev (content e) /\
    type e = (if isUserInput (trim line) then lit "user" else lit "assistant") /\
    is_noise (trim line) = false /\
    (isUserInput (trim line) = true \/ isClaudeResponse (trim line) = true \/
     (50 < strlen (trim line))%Z).
Proof.
  unfold processLine. destruct (trim line) as [|c t] eqn:E; [now left|].
  destruct (is_noise (c :: t)) eqn:Hnoise; [now left|].
  destruct (isUserInput (c :: t) || isClaudeResponse (c :: t)
            || (strlen (c :: t) >? 50)%Z) eqn:Hkeep; [|now left].
  right. eexists. split; [reflexivity|]. cbn [timestamp content type].
  destruct (trim_ends line) as [H1 H2]. rewrite E in H1, H2.
  repeat split; try discriminate; try assumption.
  - apply orb_true_iff in Hkeep. destruct Hkeep as [Hkeep|Hlong].
    + apply orb_true_iff in Hkeep. tauto.
    + right. right. apply Z.gtb_lt in Hlong. lia.
Qed.

Lemma strip_prefix_spec (p s r : jsstring) :
  strip_prefix p s = Some r <-> s = p ++ r.
Proof.
  revert s. induction p as [|x p IH]; intros s; simpl.
  - split; [now intros [= ->]|now intros ->].
  - destruct s as [|y s]; [split; discriminate|].
    destruct (N.eqb_spec x y) as [->|Hne].
    + rewrite IH. split; [now intros ->|now intros [= ->]].
    + split; [discriminate|]. intros [= E _]. now elim Hne.
Qed.

Lemma startsWith_spec (p s : jsstring) :
  startsWith p s = true <-> exists r, s = p ++ r.
Proof.
  unfold startsWith. destruct (strip_prefix p s) as [r|] eqn:E.
  - apply strip_prefix_spec in E. split; [now exists r|reflexivity].
  - split; [discriminate|]. intros [r Hr]. apply strip_prefix_spec in Hr.
    congruence.
Qed.

Lemma includes_cons (p s : jsstring) (c : char) :
  includes p (c :: s) = startsWith p (c :: s) || includes p s.
Proof. reflexivity. Qed.

Lemma includes_spec (p s : jsstring) :
  includes p s = true <-> exists a b, s = a ++ p ++ b.
Proof.
  induction s as [|c s IH].
  - cbn [includes]. rewrite orb_false_r, startsWith_spec. split.
    + intros [r Hr]. now exists [], r.
    + intros (a & b & H). destruct a; [now exists b|discriminate H].
  - rewrite includes_cons, orb_true_iff, startsWith_spec, IH. split.
    + intros [[r Hr]|(a & b & H)]; [now exists [], r|].
      exists (c :: a), b. now rewrite H.
    + intros (a & b & H). destruct a as [|x a].
      * left. now exists b.
      * right. injection H as _ H. now exists a, b.
Qed.

(** A text that has no white space at its ends is found in the trimmed
    line whenever it is found in the line. *)
Lemma includes_trim (p s : jsstring) :
  p <> [] -> trim_start p = p -> trim_start (rev p) = rev p ->
  includes p s = true -> includes p (trim s) = true.
Proof.
  intros Hne Hhead Htail Hin.
  apply includes_spec in Hin. destruct Hin as (a & b & ->).
  apply includes_spec.
  destruct p as [|c p]; [now elim Hne|].
  assert (Hc : is_space c = false).
  { pose proof (trim_start_head (c :: p)) as H. now rewrite Hhead in H. }
  destruct (rev (c :: p)) as [|d q] eqn:Erev.
  { apply (f_equal (@List.length _)) in Erev. rewrite length_rev in Erev.
    discriminate Erev. }
  assert (Hd : is_space d = false).
  { pose proof (trim_start_head (d :: q)) as H. now rewrite Htail in H. }
  unfold trim. cbn [app]. rewrite trim_start_app by exact Hc.
  change (trim_start a ++ c :: p ++ b) with (trim_start a ++ (c :: p) ++ b).
  rewrite !rev_app_distr, Erev, <- app_assoc. cbn [app].
  rewrite trim_start_app by exact Hd.
  exists (trim_start a), (rev (trim_start (rev b))).
  change (d :: q ++ rev (trim_start a)) with ((d :: q) ++ rev (trim_start a)).
  rewrite !rev_app_distr, rev_involutive, <- Erev, rev_involutive, <- app_assoc.
  reflexivity.
Qed.

(** X21: a line that mentions [node_modules] anywhere is never recorded, be
    it a prompt line, a reply or a long line. *)
Theorem processLine_drops_node_modules (now : Z) (line : jsstring)
  (buffer : list entry) :
  includes (lit "node_modules") line = true ->
  processLine now line buffer = buffer.
Proof.
  intros H. apply includes_trim in H; try reflexivity; [|discriminate].
  unfold processLine. destruct (trim line) as [|c t]; [reflexivity|].
  unfold is_noise. rewrite H, orb_true_r. reflexivity.
Qed.

Lemma processLine_drops_node_modules_witness :
  includes (lit "node_modules") (lit "$ rm -rf node_modules && npm install") = true /\
  processLine 0 (lit "$ rm -rf node_modules && npm install") [] = [].
Proof.
  split; [reflexivity|].
  now apply (@processLine_drops_node_modules 0%Z).
Defined.

Lemma trim_start_spaces (pad s : jsstring) :
  Forall (fun c => is_space c = true) pad ->
  trim_start (pad ++ s) = trim_start s.
Proof.
  induction 1 as [|c pad Hc _ IH]; [reflexivity|]. simpl. now rewrite Hc.
Qed.

Lemma trim_start_app_l (s x : jsstring) :
  trim_start (s ++ x)
  = match trim_start s with
    | [] => trim_start x
    | _ :: _ => trim_start s ++ x
    end.
Proof.
  induction s as [|c s IH]; [simpl; now destruct (trim_start x)|].
  simpl. destruct (is_space c); [exact IH|reflexivity].
Qed.

Lemma trim_padded (before after line : jsstring) :
  Forall (fun c => is_space c = true) before ->
  Forall (fun c => is_space c = true) after ->
  trim (before ++ line ++ after) = trim line.
Proof.
  intros Hb Ha. unfold trim.
  rewrite (trim_start_spaces _ Hb), trim_start_app_l.
  destruct (trim_start line) as [|c t].
  - rewrite <- (app_nil_r after), (trim_start_spaces _ Ha). reflexivity.
  - rewrite rev_app_distr, trim_start_spaces; [reflexivity|].
    now apply Forall_rev.
Qed.

(** X22: white space around a line does not matter: with blanks, tabs or
    carriage returns before and after it, the line is recorded or
    dropped in the same way, with the same content. *)
Theorem processLine_ignores_padding (now : Z) (before after line : jsstring)
  (buffer : list entry) :
  Forall (fun c => is_space c = true) before ->
  Forall (fun c => is_space c = true) after ->
  processLine now (before ++ line ++ after) buffer = processLine now line buffer.
Proof.
  intros Hb Ha. unfold processLine. now rewrite (@trim_padded before after line Hb Ha).
Qed.

Lemma processLine_ignores_padding_witness :
  Forall (fun c => is_space c = true) [32%N; 9%N] /\
  Forall (fun c => is_space c = true) [13%N] /\
  processLine 5 ([32%N; 9%N] ++ lit "You: hello" ++ [13%N]) []
  = processLine 5 (lit "You: hello") [].
Proof.
  assert (Hb : Forall (fun c => is_space c = true) [32%N; 9%N])
    by (repeat constructor).
  assert (Ha : Forall (fun c => is_space c = true) [13%N])
    by (repeat constructor).
  split; [exact Hb|]. split; [exact Ha|].
  exact (@processLine_ignores_padding 5%Z _ _ (lit "You: hello") [] Hb Ha).
Defined.

(** *** Checkpoints *)

Lemma processLine_app (now : Z) (line : jsstring) (a b : list entry) :
  processLine now line (a ++ b) = a ++ processLine now line b.
Proof.
  rewrite (processLine_from_empty now line (a ++ b)),
    (processLine_from_empty now line b).
  now rewrite app_assoc.
Qed.

Lemma recorded_app (events : list watcher_event) (a b : list entry) :
  recorded events (a ++ b) = a ++ recorded events b.
Proof.
  revert b. induction events as [|[now line|r] events IH]; intros b;
    cbn [recorded]; [reflexivity| |apply IH].
  rewrite processLine_app. apply IH.
Qed.

Lemma checkpoint_keeps_entries (r : reply) (w : watcher) :
  List.concat (accepted (checkpoint r w)) ++ conversationBuffer (checkpoint r w)
  = List.concat (accepted w) ++ conversationBuffer w.
Proof.
  unfold checkpoint, checkpoint_start, checkpoint_finish.
  destruct (conversationBuffer w) as [|e rest] eqn:E; [now rewrite E|].
  destruct (sendToSusan r); cbn [accepted conversationBuffer].
  - rewrite concat_app. cbn [List.concat]. now rewrite !app_nil_r.
  - now rewrite E.
Qed.

Lemma checkpoint_batches_nonempty (r : reply) (w : watcher) :
  Forall (fun batch => batch <> []) (accepted w) ->
  Forall (fun batch => batch <> []) (accepted (checkpoint r w)).
Proof.
  intros H. unfold checkpoint, checkpoint_start, checkpoint_finish.
  destruct (conversationBuffer w) as [|e rest]; [exact H|].
  destruct (sendToSusan r); [|exact H]. cbn [accepted].
  apply Forall_app. split; [exact H|]. now repeat constructor.
Qed.

(** X23: in a run in which every checkpoint goes from its start to its
    reply with nothing in between, neither a line nor the start of
    another checkpoint, the batches for which [sendToSusan] returned
    [true], one after the other, followed by what is still in the
    buffer, are exactly the entries recorded from the lines, in their
    order and once each; and no such batch is empty.  The proviso is
    needed: a batch answered with a body that cannot be read stays in
    the buffer and is sent again, and two checkpoints that started on
    the same buffer and both succeed record their batch twice. *)
Theorem watcher_keeps_every_entry (events : list watcher_event) :
  let w := watcher_run events watcher_initial in
  List.concat (accepted w) ++ conversationBuffer w = recorded events [] /\
  Forall (fun batch => batch <> []) (accepted w) /\
  checkpoint (Response true false) w = w /\
  (forall messages,
     accepted (checkpoint_finish (Response true true) messages
                 (checkpoint_finish (Response true true) messages w))
     = accepted w ++ [messages; messages]).
Proof.
  cbv zeta.
  assert (H : forall w,
             Forall (fun batch => batch <> []) (accepted w) ->
             List.concat (accepted (watcher_run events w))
               ++ conversationBuffer (watcher_run events w)
             = recorded events (List.concat (accepted w) ++ conversationBuffer w) /\
             Forall (fun batch => batch <> []) (accepted (watcher_run events w))).
  { unfold watcher_run.
    induction events as [|[now line|r] events IH]; intros w Hw;
      cbn [fold_left recorded watcher_step].
    - now split.
    - destruct (IH (watcher_line w (now, line)) Hw) as [IH1 IH2].
      split; [|exact IH2]. rewrite IH1. cbn [watcher_line accepted conversationBuffer fst snd].
      now rewrite processLine_app.
    - destruct (IH (checkpoint r w) (@checkpoint_batches_nonempty r w Hw)) as [IH1 IH2].
      split; [|exact IH2]. now rewrite IH1, checkpoint_keeps_entries. }
  destruct (H watcher_initial (Forall_nil _)) as [H1 H2].
  split; [exact H1|]. split; [exact H2|]. split.
  - unfold checkpoint. now destruct (checkpoint_start _).
  - intros messages. cbn [checkpoint_finish sendToSusan andb accepted].
    now rewrite <- app_assoc.
Qed.

Lemma watcher_lines_buffer (lines : list (Z * jsstring)) (w : watcher) :
  conversationBuffer (fold_left watcher_line lines w)
  = conversationBuffer w
    ++ recorded (map (fun timed => Line (fst timed) (snd timed)) lines) [] /\
  accepted (fold_left watcher_line lines w) = accepted w.
Proof.
  revert w. induction lines as [|[now line] lines IH]; intros w;
    cbn [fold_left map recorded fst snd].
  - now rewrite app_nil_r.
  - destruct (IH (watcher_line w (now, line))) as [-> ->].
    cbn [watcher_line conversationBuffer accepted fst snd]. split; [|reflexivity].
    rewrite (processLine_from_empty now line (conversationBuffer w)).
    now rewrite <- app_assoc, <- recorded_app, app_nil_r.
Qed.

(** X24: lines that arrive while a checkpoint waits for its reply: when
    Susan accepts the batch, the buffer is emptied with them in it,
    although the batch sent holds only the entries from before the
    wait, so they are neither sent nor kept; when the request fails or
    is refused, the buffer is left as it is and they stay. *)
Theorem checkpoint_in_flight (r : reply) (w : watcher) (messages : list entry)
  (lines : list (Z * jsstring)) :
  checkpoint_start w = Some messages ->
  let during := fold_left watcher_line lines w in
  let after := checkpoint_finish r messages during in
  messages = conversationBuffer w /\
  conversationBuffer during
  = messages ++ recorded (map (fun timed => Line (fst timed) (snd timed)) lines) [] /\
  (sendToSusan r = true ->
   conversationBuffer after = [] /\ accepted after = accepted w ++ [messages]) /\
  (sendToSusan r = false -> after = during).
Proof.
  intros Hstart. cbv zeta.
  assert (Hm : messages = conversationBuffer w).
  { unfold checkpoint_start in Hstart.
    destruct (conversationBuffer w); [discriminate|now injection Hstart]. }
  destruct (watcher_lines_buffer lines w) as [Hbuf Hacc].
  split; [exact Hm|]. split; [now rewrite Hm|].
  unfold checkpoint_finish. split; intros ->; [|reflexivity].
  cbn [conversationBuffer accepted]. now rewrite Hacc.
Qed.

Lemma checkpoint_in_flight_witness :
  let w := watcher_run [Line 1 (lit "$ make")] watcher_initial in
  let sent := [{| timestamp := 1; content := lit "$ make"; type := lit "user" |}] in
  checkpoint_start w = Some sent /\
  conversationBuffer
    (checkpoint_finish (Response true true) sent
       (fold_left watcher_line [(2%Z, lit "Let me build it.")] w)) = [] /\
  accepted
    (checkpoint_finish (Response true true) sent
       (fold_left watcher_line [(2%Z, lit "Let me build it.")] w)) = [sent].
Proof.
  cbv zeta. split; [reflexivity|].
  destruct (@checkpoint_in_flight (Response true true)
              (watcher_run [Line 1 (lit "$ make")] watcher_initial)
              [{| timestamp := 1; content := lit "$ make"; type := lit "user" |}]
              [(2%Z, lit "Let me build it.")] eq_refl) as (_ & _ & H & _).
  exact (H eq_refl).
Defined.

(** *** Standard input *)

Lemma process_pieces_app (now_at : nat -> Z) (a b : list jsstring) :
  forall i buffer,
    process_pieces now_at i (a ++ b) buffer
    = process_pieces now_at (i + List.length a) b (process_pieces now_at i a buffer).
Proof.
  induction a as [|piece a IH]; intros i buffer; cbn [app process_pieces List.length].
  - now rewrite Nat.add_0_r.
  - rewrite IH. f_equal. lia.
Qed.

Lemma process_pieces_ext (f g : nat -> Z) (pieces : list jsstring) :
  forall i k buffer,
    (forall j, f (i + j) = g (k + j)) ->
    process_pieces f i pieces buffer = process_pieces g k pieces buffer.
Proof.
  induction pieces as [|piece pieces IH]; intros i k buffer H; [reflexivity|].
  cbn [process_pieces].
  pose proof (H 0) as H0. rewrite !Nat.add_0_r in H0. rewrite H0.
  apply IH. intros j. specialize (H (S j)).
  now rewrite !Nat.add_succ_r in H.
Qed.

(** X25: cutting the input at a newline changes nothing: one chunk with a
    newline in it leaves the buffer as the two chunks on either side of
    the newline do, one after the other, the clock being read at the
    same lines. *)
Theorem on_stdin_data_newline (now_at : nat -> Z) (a b : jsstring)
  (buffer : list entry) :
  on_stdin_data now_at (a ++ NEWLINE :: b) buffer
  = on_stdin_data (fun j => now_at (List.length (split_lines a) + j)) b
      (on_stdin_data now_at a buffer).
Proof.
  unfold on_stdin_data. rewrite split_lines_app, process_pieces_app.
  apply process_pieces_ext. intros j. reflexivity.
Qed.

(** ** The connection to Chad *)

Lemma nth_error_last_socket (closed : list socket_state) (st x : socket_state) (k : nat) :
  Forall (fun y => y = Closed) closed ->
  nth_error (closed ++ [st]) k = Some x ->
  x <> Closed ->
  k = List.length closed /\ x = st.
Proof.
  intros Hclosed Hnth Hx.
  destruct (Nat.lt_ge_cases k (List.length closed)) as [Hlt|Hge].
  - rewrite nth_error_app1 in Hnth by exact Hlt.
    apply nth_error_In in Hnth. rewrite Forall_forall in Hclosed.
    now elim Hx; apply Hclosed.
  - rewrite nth_error_app2 in Hnth by exact Hge.
    destruct (k - List.length closed) as [|j] eqn:E.
    + injection Hnth as <-. split; [lia|reflexivity].
    + destruct j; discriminate Hnth.
Qed.

Lemma nth_error_all_closed (l : list socket_state) (x : socket_state) (k : nat) :
  Forall (fun y => y = Closed) l -> nth_error l k = Some x -> x = Closed.
Proof.
  intros H Hnth. apply nth_error_In in Hnth. rewrite Forall_forall in H.
  now apply H.
Qed.

Lemma set_socket_last (closed : list socket_state) (st new : socket_state) :
  set_socket (List.length closed) new (closed ++ [st]) = closed ++ [new].
Proof.
  induction closed as [|x closed IH]; [reflexivity|]. simpl. now rewrite IH.
Qed.

Lemma chad_inv_timers (t : Z) (w : chad) :
  chad_inv w -> chad_inv (chad_run_timers t (chad_timers w) w).
Proof.
  unfold chad_inv. destruct (chadWs w) as [k|] eqn:Ews.
  - intros (Hk & Hs & ->). cbn. rewrite Ews. now repeat split.
  - intros (Hclosed & Hconn & Hlen).
    destruct (chad_timers w) as [|due [|more rest]] eqn:Et;
      [| |simpl in Hlen; lia].
    + cbn. rewrite Ews. repeat split; auto.
    + cbn [chad_run_timers]. destruct (due <=? t)%Z.
      * unfold connectToChad, chad_live. cbn. rewrite Ews. cbn.
        rewrite length_app. cbn. split; [lia|]. split; [|reflexivity].
        exists (chad_sockets w), Connecting.
        split; [reflexivity|]. split; [exact Hclosed|].
        split; [discriminate|]. rewrite Hconn. discriminate.
      * cbn. rewrite Ews. repeat split; auto.
Qed.

Lemma chad_inv_at (t : Z) (w : chad) :
  chad_inv w ->
  chad_inv {| chadWs := chadWs w; chadConnected := chadConnected w;
              chad_sockets := chad_sockets w; chad_timers := chad_timers w;
              chad_now := t |}.
Proof. exact (fun H => H). Qed.

(* An event a socket can have is an event of the current socket, the
   only one that is not closed. *)
Lemma socket_event_current (w : chad) (k : nat) (x : socket_state) :
  chad_inv w -> socket_is k w = Some x -> x <> Closed ->
  exists closed,
    chadWs w = Some k /\ chad_sockets w = closed ++ [x] /\
    k = List.length closed /\ Forall (fun y => y = Closed) closed /\
    chad_timers w = [] /\ (chadConnected w = true -> x = Opened).
Proof.
  unfold chad_inv, socket_is. intros H Hk Hx.
  destruct (chadWs w) as [k0|].
  - destruct H as (Hlen & (closed & st & Es & Hc & Hst & Hop) & Ht).
    rewrite Es in Hk.
    destruct (@nth_error_last_socket closed st x k Hc Hk Hx) as [-> ->].
    exists closed. rewrite Es, length_app in Hlen. cbn in Hlen.
    repeat split; auto. f_equal. lia.
  - destruct H as (Hc & _).
    now elim Hx; apply (@nth_error_all_closed (chad_sockets w) x k).
Qed.

Lemma chad_inv_dispatch (e : chad_event) (w : chad) :
  chad_inv w -> chad_inv (chad_dispatch e w).
Proof.
  intros H. destruct e as [k|k|k|]; cbn [chad_dispatch]; [| | |exact H];
    destruct (socket_is k w) as [x|] eqn:Ek; try exact H;
    destruct x; try exact H;
    destruct (@socket_event_current w k _ H Ek ltac:(discriminate))
      as (closed & Ews & Es & -> & Hc & Ht & Hop);
    unfold chad_inv; cbn [chadWs chadConnected chad_sockets chad_timers];
    rewrite ?Ews, ?Es, ?set_socket_last, ?Ht.
  - split; [rewrite length_app; cbn; lia|]. split; [|reflexivity].
    exists closed, Opened. repeat split; auto. discriminate.
  - split; [rewrite length_app; cbn; lia|]. split; [|reflexivity].
    exists closed, Connecting. repeat split; auto; discriminate.
  - split; [rewrite length_app; cbn; lia|]. split; [|reflexivity].
    exists closed, Opened. repeat split; auto. discriminate.
  - split; [|split; [reflexivity|cbn; lia]].
    apply Forall_app. split; [exact Hc|repeat constructor].
  - split; [|split; [reflexivity|cbn; lia]].
    apply Forall_app. split; [exact Hc|repeat constructor].
Qed.

Lemma chad_inv_deliver (te : Z * chad_event) (w : chad) :
  chad_inv w -> chad_inv (chad_deliver w te).
Proof.
  intros H. unfold chad_deliver.
  apply chad_inv_dispatch, chad_inv_at, chad_inv_timers, H.
Qed.

Lemma chad_inv_fold (trace : list (Z * chad_event)) (w : chad) :
  chad_inv w -> chad_inv (fold_left chad_deliver trace w).
Proof.
  revert w. induction trace as [|te trace IH]; intros w H; [exact H|].
  apply IH, chad_inv_deliver, H.
Qed.

Lemma chad_inv_run (trace : list (Z * chad_event)) : chad_inv (chad_run trace).
Proof.
  apply chad_inv_fold. unfold chad_inv. cbn. repeat split.
  exists [], Connecting. repeat split; [constructor|discriminate|discriminate].
Qed.

Lemma filter_all_closed (l : list socket_state) :
  Forall (fun x => x = Closed) l ->
  filter (fun st => match st with Closed => false | _ => true end) l = [].
Proof.
  induction 1 as [|x l -> _ IH]; [reflexivity|exact IH].
Qed.

(** X26: in every run at most one socket to Chad is not closed; whenever
    the test of [logToChad] passes, the socket it writes to has opened
    and has not closed; and at most one reconnection is pending. *)
Theorem chad_single_socket (trace : list (Z * chad_event)) :
  let w := chad_run trace in
  open_sockets w <= 1 /\
  (chad_live w = true ->
   exists k, chadWs w = Some k /\ socket_is k w = Some Opened) /\
  List.length (chad_timers w) <= 1.
Proof.
  cbv zeta. pose proof (chad_inv_run trace) as H.
  unfold chad_inv, open_sockets, chad_live, socket_is in *.
  destruct (chadWs (chad_run trace)) as [k|].
  - destruct H as (Hlen & (closed & st & Es & Hc & Hst & Hop) & Ht).
    rewrite Es, filter_app, (filter_all_closed Hc), Ht in *.
    rewrite length_app in Hlen. cbn in Hlen.
    split; [destruct st; cbn; lia|]. split; [|cbn; lia].
    intros Hlive. exists k. split; [reflexivity|].
    rewrite nth_error_app2 by lia.
    replace (k - List.length closed) with 0 by lia.
    cbn. now rewrite (Hop Hlive).
  - destruct H as (Hc & _ & Ht). rewrite (filter_all_closed Hc).
    split; [cbn; lia|]. split; [discriminate|exact Ht].
Qed.





(** ** The [server_claude_status] tool *)

Example status_text :
  server_claude_status (lit "ws://161.35.229.220:5400")
    {| serverClaudeWs := None; serverClaudeBuffer := lit "0123456789ab";
       serverClaudeConnected := false |}
  = ch "{" :: NEWLINE :: dq "  'connected': false," ++ NEWLINE ::
    dq "  'wsUrl': 'ws://161.35.229.220:5400'," ++ NEWLINE ::
    dq "  'bufferSize': 12" ++ [NEWLINE; ch "}"].
Proof. reflexivity. Qed.

Lemma uint_chars_digits (d : Decimal.uint) : Forall (fun c => digit c = true) (uint_chars d).
Proof. induction d; constructor; try reflexivity; assumption. Qed.

Lemma span_digits (ds rest : jsstring) :
  Forall (fun c => digit c = true) ds ->
  match rest with [] => True | c :: _ => digit c = false end ->
  span digit (ds ++ rest) = (ds, rest).
Proof.
  intros Hds Hrest. induction Hds as [|c ds Hc _ IH]; cbn [app span].
  - destruct rest as [|c rest]; [reflexivity|]. cbn [span]. now rewrite Hrest.
  - now rewrite Hc, IH.
Qed.

(* The digits of a number are [0] alone or start with another digit. *)
Lemma decimal_shape (n : N) :
  decimal n = [ch "0"] \/
  exists c ds, decimal n = c :: ds /\ digit c = true /\ c <> ch "0" /\
               Forall (fun x => digit x = true) ds.
Proof.
  unfold decimal.
  assert (Hnorm : Decimal.unorm (N.to_uint n) = N.to_uint n).
  { rewrite <- (DecimalN.Unsigned.of_to n) at 2.
    now rewrite DecimalN.Unsigned.to_of. }
  pose proof (uint_chars_digits (N.to_uint n)) as Hdigits.
  destruct (N.to_uint n) as [|d|d|d|d|d|d|d|d|d|d] eqn:E;
    try (right; eexists; eexists; split; [reflexivity|];
         inversion Hdigits; subst; repeat split; [discriminate|assumption]).
  - discriminate Hnorm.
  - left. rewrite DecimalFacts.unorm_D0 in Hnorm. unfold Decimal.unorm in Hnorm.
    destruct (Decimal.nzhead d) as [|u|u|u|u|u|u|u|u|u|u] eqn:Ed;
      try discriminate Hnorm.
    + injection Hnorm as <-. reflexivity.
    + now elim (DecimalFacts.nzhead_nonzero d u).
Qed.

Lemma digit_is_plain (c : char) :
  digit c = true ->
  is_ws c = false /\ is_char (ch "-") c = false /\ is_char (ch "{") c = false /\
  is_char (ch "[") c = false /\ is_char QUOTE c = false /\
  is_char (ch "t") c = false /\ is_char (ch "f") c = false /\
  is_char (ch "n") c = false.
Proof.
  unfold digit, in_range, is_ws, is_char, QUOTE, ch.
  repeat match goal with
         | |- context [N_of_ascii ?a] =>
             let v := eval vm_compute in (N_of_ascii a) in
             change (N_of_ascii a) with v
         end.
  rewrite andb_true_iff, !N.leb_le. intros [H1 H2].
  repeat split;
    repeat match goal with
           | |- context [N.eqb ?a c] => destruct (N.eqb_spec a c); [lia|]
           end; reflexivity.
Qed.

Lemma parse_number_decimal (n : N) (rest : jsstring) :
  parse_number (decimal n ++ NEWLINE :: rest) = Some (decimal n, NEWLINE :: rest).
Proof.
  destruct (decimal_shape n) as [->|(c & ds & -> & Hc & Hz & Hds)];
    [reflexivity|].
  destruct (digit_is_plain c Hc) as (_ & Hminus & _).
  unfold parse_number. cbn [app]. rewrite Hminus, Hc. cbn [negb].
  unfold is_char at 1. destruct (N.eqb_spec (ch "0") c) as [E|_];
    [now elim Hz|].
  change (c :: ds ++ NEWLINE :: rest) with ((c :: ds) ++ NEWLINE :: rest).
  rewrite (@span_digits (c :: ds) (NEWLINE :: rest));
    [|now constructor|reflexivity].
  cbn. now rewrite app_nil_r.
Qed.

Lemma parse_value_number (fuel : nat) (n : N) (rest : jsstring) :
  parse_value (S fuel) (32%N :: decimal n ++ NEWLINE :: rest)
  = Some (JNumber (decimal n), NEWLINE :: rest).
Proof.
  pose proof (parse_number_decimal n rest) as Hnum.
  destruct (decimal_shape n) as [E|(c & ds & E & Hc & _)]; rewrite E in *.
  - reflexivity.
  - destruct (digit_is_plain c Hc) as (H1 & _ & H2 & H3 & H4 & H5 & H6 & H7).
    cbn [app] in *.
    change (parse_value (S fuel) (32%N :: c :: ds ++ NEWLINE :: rest))
      with (match skip_ws (c :: ds ++ NEWLINE :: rest) with
            | [] => None
            | c :: s' =>
                if is_char (ch "{") c then
                  match skip_ws s' with
                  | d :: s'' =>
                      if is_char (ch "}") d then Some (JObject [], s'')
                      else parse_members fuel (d :: s'') []
                  | [] => None
                  end
                else if is_char (ch "[") c then
                  match skip_ws s' with
                  | d :: s'' =>
                      if is_char (ch "]") d then Some (JArray [], s'')
                      else parse_elements fuel (d :: s'') []
                  | [] => None
                  end
                else if is_char QUOTE c then
                  match parse_string_chars s' with
                  | Some (str, rest) => Some (JString str, rest)
                  | None => None
                  end
                else if is_char (ch "t") c then
                  option_map (pair (JBool true)) (strip_prefix (lit "rue") s')
                else if is_char (ch "f") c then
                  option_map (pair (JBool false)) (strip_prefix (lit "alse") s')
                else if is_char (ch "n") c then
                  option_map (pair JNull) (strip_prefix (lit "ull") s')
                else
                  match parse_number (c :: s') with
                  | Some (num, rest) => Some (JNumber num, rest)
                  | None => None
                  end
            end).
    cbn [skip_ws]. rewrite H1, H2, H3, H4, H5, H6, H7, Hnum. reflexivity.
Qed.

Lemma parse_members_at (fuel : nat) (s key t : jsstring)
  (acc : list (jsstring * json)) :
  skip_ws s = QUOTE :: key ++ QUOTE :: ch ":" :: t ->
  (forall rest, parse_string_chars (key ++ QUOTE :: rest) = Some (key, rest)) ->
  parse_members (S fuel) s acc
  = match parse_value fuel t with
    | None => None
    | Some (v, rest) =>
        match skip_ws rest with
        | d :: rest' =>
            if is_char (ch ",") d
            then parse_members fuel rest' ((key, v) :: acc)
            else if is_char (ch "}") d
                 then Some (JObject (rev ((key, v) :: acc)), rest')
                 else None
        | [] => None
        end
    end.
Proof.
  intros Hs Hkey.
  change (parse_members (S fuel) s acc)
    with (match skip_ws s with
          | q :: s' =>
              if is_char QUOTE q then
                match parse_string_chars s' with
                | None => None
                | Some (key, s1) =>
                    match skip_ws s1 with
                    | colon :: s2 =>
                        if is_char (ch ":") colon then
                          match parse_value fuel s2 with
                          | None => None
                          | Some (v, rest) =>
                              match skip_ws rest with
                              | d :: rest' =>
                                  if is_char (ch ",") d
                                  then parse_members fuel rest' ((key, v) :: acc)
                                  else if is_char (ch "}") d
                                  then Some (JObject (rev ((key, v) :: acc)), rest')
                                  else None
                              | [] => None
                              end
                          end
                        else None
                    | [] => None
                    end
                end
              else None
          | [] => None
          end).
  rewrite Hs. change (is_char QUOTE QUOTE) with true. cbv iota.
  rewrite Hkey. reflexivity.
Qed.

Lemma parse_value_string_ws (fuel : nat) (s rest : jsstring) :
  parse_value (S fuel) (32%N :: QUOTE :: quote_units s ++ QUOTE :: rest)
  = Some (JString s, rest).
Proof.
  change (parse_value (S fuel) (32%N :: QUOTE :: quote_units s ++ QUOTE :: rest))
    with (match parse_string_chars (quote_units s ++ QUOTE :: rest) with
          | Some (str, rest) => Some (JString str, rest)
          | None => None
          end).
  now rewrite parse_quoted.
Qed.

Lemma parse_value_object_ws (fuel : nat) (t : jsstring) :
  parse_value (S fuel) (ch "{" :: NEWLINE :: 32%N :: 32%N :: QUOTE :: t)
  = parse_members fuel (QUOTE :: t) [].
Proof. reflexivity. Qed.

Lemma skip_ws_comma (t : jsstring) : skip_ws (ch "," :: t) = ch "," :: t.
Proof. reflexivity. Qed.

Lemma parse_status (fuel : nat) (connected : bool) (url : jsstring) (n : N) :
  parse_value (5 + fuel)
    (ch "{" :: NEWLINE :: 32%N :: 32%N :: QUOTE :: lit "connected" ++ QUOTE :: ch ":" ::
     32%N :: (if connected then lit "true" else lit "false") ++ ch "," ::
     NEWLINE :: 32%N :: 32%N :: QUOTE :: lit "wsUrl" ++ QUOTE :: ch ":" ::
     32%N :: QUOTE :: quote_units url ++ QUOTE :: ch "," ::
     NEWLINE :: 32%N :: 32%N :: QUOTE :: lit "bufferSize" ++ QUOTE :: ch ":" ::
     32%N :: decimal n ++ [NEWLINE; ch "}"])
  = Some (JObject [(lit "connected", JBool connected);
                   (lit "wsUrl", JString url);
                   (lit "bufferSize", JNumber (decimal n))], []).
Proof.
  change (5 + fuel) with (S (S (S (S (S fuel))))).
  rewrite parse_value_object_ws.
  erewrite (@parse_members_at _ _ (lit "connected")); [|reflexivity|reflexivity].
  replace (parse_value (S (S (S fuel)))
             (32%N :: (if connected then lit "true" else lit "false") ++ ch "," ::
              NEWLINE :: 32%N :: 32%N :: QUOTE :: lit "wsUrl" ++ QUOTE :: ch ":" ::
              32%N :: QUOTE :: quote_units url ++ QUOTE :: ch "," ::
              NEWLINE :: 32%N :: 32%N :: QUOTE :: lit "bufferSize" ++ QUOTE :: ch ":" ::
              32%N :: decimal n ++ [NEWLINE; ch "}"]))
    with (Some (JBool connected,
             ch "," ::
              NEWLINE :: 32%N :: 32%N :: QUOTE :: lit "wsUrl" ++ QUOTE :: ch ":" ::
              32%N :: QUOTE :: quote_units url ++ QUOTE :: ch "," ::
              NEWLINE :: 32%N :: 32%N :: QUOTE :: lit "bufferSize" ++ QUOTE :: ch ":" ::
              32%N :: decimal n ++ [NEWLINE; ch "}"]))
    by (destruct connected; reflexivity).
  rewrite skip_ws_comma. change (is_char (ch ",") (ch ",")) with true. cbv iota.
  erewrite (@parse_members_at _ _ (lit "wsUrl")); [|reflexivity|reflexivity].
  rewrite parse_value_string_ws, skip_ws_comma.
  change (is_char (ch ",") (ch ",")) with true. cbv iota.
  erewrite (@parse_members_at _ _ (lit "bufferSize")); [|reflexivity|reflexivity].
  rewrite parse_value_number. reflexivity.
Qed.

Lemma uint_chars_inj (d d' : Decimal.uint) :
  uint_chars d = uint_chars d' -> d = d'.
Proof.
  revert d'. induction d; intros d' H; destruct d'; cbn in H;
    try discriminate H; try reflexivity;
    injection H as H; f_equal; now apply IHd.
Qed.

(** X14: the text of the status is JSON.  Read back, it is an object with
    the flag, the address as it was configured, character for
    character, and the digits of the buffer's length, from which the
    length can be told. *)
Theorem server_claude_status_round_trip (CLAUDE_SERVER_WS : jsstring) (g : session) :
  JSON_parse (server_claude_status CLAUDE_SERVER_WS g)
  = Some (JObject
            [(lit "connected", JBool (serverClaudeConnected g));
             (lit "wsUrl", JString CLAUDE_SERVER_WS);
             (lit "bufferSize",
              JNumber (decimal (Z.to_N (strlen (serverClaudeBuffer g)))))]) /\
  forall m, decimal m = decimal (Z.to_N (strlen (serverClaudeBuffer g))) ->
            Z.of_N m = strlen (serverClaudeBuffer g).
Proof.
  split.
  - unfold JSON_parse.
    set (text := server_claude_status CLAUDE_SERVER_WS g).
    assert (Hlen : 2 <= List.length text) by (cbn [text server_claude_status List.length]; lia).
    replace (S (2 * List.length text)) with (5 + (2 * List.length text - 4)) by lia.
    assert (Htext : text =
      ch "{" :: NEWLINE :: 32%N :: 32%N :: QUOTE :: lit "connected" ++ QUOTE :: ch ":" ::
      32%N :: (if serverClaudeConnected g then lit "true" else lit "false") ++ ch "," ::
      NEWLINE :: 32%N :: 32%N :: QUOTE :: lit "wsUrl" ++ QUOTE :: ch ":" ::
      32%N :: QUOTE :: quote_units CLAUDE_SERVER_WS ++ QUOTE :: ch "," ::
      NEWLINE :: 32%N :: 32%N :: QUOTE :: lit "bufferSize" ++ QUOTE :: ch ":" ::
      32%N :: decimal (Z.to_N (strlen (serverClaudeBuffer g))) ++ [NEWLINE; ch "}"]).
    { unfold text, server_claude_status, QuoteJSONString. cbn [app].
      rewrite <- (app_assoc (quote_units CLAUDE_SERVER_WS)). reflexivity. }
    rewrite Htext at 2. now rewrite parse_status.
  - intros m Hm. unfold decimal in Hm.
    apply uint_chars_inj, DecimalN.Unsigned.to_uint_inj in Hm. subst m.
    unfold strlen. lia.
Qed.

Lemma server_claude_status_round_trip_witness :
  decimal 12 = decimal (Z.to_N (strlen (lit "0123456789ab"))) /\
  Z.of_N 12 = strlen (lit "0123456789ab").
Proof.
  split; [reflexivity|].
  apply (@server_claude_status_round_trip []
           {| serverClaudeWs := None; serverClaudeBuffer := lit "0123456789ab";
              serverClaudeConnected := false |}).
  reflexivity.
Defined.

Lemma chad_single_socket_witness :
  chad_live (chad_run [(40, ChadOpen 0)]%Z) = true /\
  exists k, chadWs (chad_run [(40, ChadOpen 0)]%Z) = Some k /\
            socket_is k (chad_run [(40, ChadOpen 0)]%Z) = Some Opened.
Proof.
  split; [reflexivity|].
  apply (@chad_single_socket [(40, ChadOpen 0)]%Z). reflexivity.
Defined.

(** ** The message handler, continued *)

(** X7: an 'output' frame without a text to strip, its [data] missing or a
    number, a boolean, [null], an array or an object, makes the call of
    [replace] throw inside the [try] block: the raw fallback appends the
    whole frame, braces and quotes included, without the size check. *)
Theorem on_message_output_without_text (data buffer : jsstring)
  (members : list (jsstring * json)) :
  JSON_parse data = Some (JObject members) ->
  lookup_member (lit "type") members = Some (JString (lit "output")) ->
  (forall text, lookup_member (lit "data") members <> Some (JString text)) ->
  on_message data buffer = inr (buffer ++ data).
Proof.
  intros Hparse Htype Hdata. unfold on_message, try_block, parse.
  rewrite Hparse. unfold bind, ret, get. rewrite Htype. cbn [is_string].
  change (streq (lit "output") (lit "output")) with true. cbv iota.
  destruct (lookup_member (lit "data") members) as [[| | |text| |]|];
    try reflexivity.
  now elim (Hdata text).
Qed.

Lemma on_message_output_without_text_witness :
  JSON_parse (dq "{'type':'output','data':42}")
  = Some (JObject [(lit "type", JString (lit "output")); (lit "data", JNumber (lit "42"))]) /\
  on_message (dq "{'type':'output','data':42}") (lit "$ ")
  = inr (lit "$ " ++ dq "{'type':'output','data':42}").
Proof.
  split; [reflexivity|].
  apply (@on_message_output_without_text _ _
           [(lit "type", JString (lit "output")); (lit "data", JNumber (lit "42"))]);
    [reflexivity|reflexivity|discriminate].
Defined.

Lemma buffer_after_collapse_witness :
  (strlen (buffer_after [] ++ long_raw_frame) > 50000)%Z /\
  buffer_after ([] ++ [long_raw_frame])
  = trailing 30000 (unbounded ([] ++ [long_raw_frame])).
Proof.
  assert (H : (strlen (buffer_after [] ++ long_raw_frame) > 50000)%Z)
    by (vm_compute; reflexivity).
  split; [exact H|]. exact (@buffer_after_collapse [] long_raw_frame H).
Defined.
